(** * Gconnect chat: conversation ids, message lifecycle, deletion, proxy history

    A shallow embedding of the realtime-sync logic of [index.html] (the
    browser client over the realtime document store) and of
    [prepareMessages] in [server.js], with the properties the specification
    states about them.

    JavaScript strings are modelled by [string]; the default comparison of
    [Array.prototype.sort] (code-unit lexicographic order) is [String.leb].
    A JavaScript object whose properties may be [undefined] is a record of
    [option] fields. *)

From Stdlib Require Import ZArith Lia Ascii.
From stdpp Require Import base option list sorting strings gmap.


(** ** JavaScript string helpers *)

(** The order [sort()] uses when no comparator is given. *)
Definition str_le (a b : string) : Prop := String.leb a b = true.

#[global] Instance str_le_dec : RelDecision str_le.
Proof. intros a b. unfold str_le. apply _. Defined.

(** [arr.sort()] on an array of strings. *)
Definition sort (l : list string) : list string := merge_sort str_le l.

(** [arr.join(sep)]. *)
Definition join (sep : string) (l : list string) : string := String.concat sep l.

(** What a template literal prints for a possibly [undefined] string. *)
Definition js_str (o : option string) : string := default "undefined" o.

(** [o || d] on a possibly [undefined] string (the empty string is falsy). *)
Definition or_else (o : option string) (d : string) : string :=
  match o with
  | Some s => if decide (s = "") then d else s
  | None => d
  end.

(** The white space [trim()] strips, among the code units below 256. *)
Definition is_space (c : ascii) : bool :=
  let n := nat_of_ascii c in
  (n =? 32)%nat || ((9 <=? n)%nat && (n <=? 13)%nat) || (n =? 160)%nat.

Fixpoint drop_spaces (s : string) : string :=
  match s with
  | String c r => if is_space c then drop_spaces r else s
  | EmptyString => EmptyString
  end.

(** [s.trim()]. *)
Definition trim (s : string) : string :=
  String.rev (drop_spaces (String.rev (drop_spaces s))).

(** [arr.slice(start)] for a possibly negative [start]. *)
Definition slice_from {A} (start : Z) (l : list A) : list A :=
  let len := Z.of_nat (length l) in
  let k := if (start <? 0)%Z then Z.max (len + start) 0 else Z.min start len in
  drop (Z.to_nat k) l.

(** ** Users and conversation ids *)

Record User := mkUser {
  uid : string;
  displayName : string;
  photoURL : option string
}.

(** The [{ uid, name }] objects of [chatUsers], [selected] and [members]. *)
Record ChatUser := mkChatUser {
  cu_uid : string;
  cu_name : string
}.

Definition self_entry (u : User) : ChatUser := mkChatUser (uid u) (displayName u).

(** [openChat], lines 232-233: [chatUsers] and [currentChatId]. *)
Definition chatUsersOf (users : list ChatUser) (me : User) : list ChatUser :=
  users ++ [self_entry me].

Definition chatIdOf (users : list ChatUser) (gid : option string) (me : User) : string :=
  or_else gid (join "_" (sort (cu_uid <$> chatUsersOf users me))).

(** The direct-conversation id: what [openChat([u])] computes when the list
    entry of user [other] is clicked by the signed-in user [self]. *)
Definition resolveDirect (self other : User) : string :=
  chatIdOf [self_entry other] None self.

(** [createGroupBtn.onclick], lines 336-337. *)
Definition groupMembers (selected : list ChatUser) (me : User) : list ChatUser :=
  selected ++ [self_entry me].

Definition groupIdOf (selected : list ChatUser) (me : User) : string :=
  join "_" (sort (cu_uid <$> groupMembers selected me)).

(** ** The proxy's message preparation ([server.js]) *)

(** An element of the incoming [messages] array: a falsy value, or a value
    whose [role] and [content] may be absent. *)
Inductive JsEntry :=
  | JFalsy
  | JObject (role : option string) (content : option string).

(** [m && m.role === 'system'] *)
Definition is_system (m : JsEntry) : bool :=
  match m with
  | JObject (Some r) _ => bool_decide (r = "system")
  | _ => false
  end.

Definition MAX_HISTORY : nat := 20.

Section Proxy.
(** The instruction text differs between the two revisions of the file;
    [prepareMessages] is the same in both. *)
Variable DEFAULT_SYSTEM_INSTRUCTION : string.

Definition default_instruction : JsEntry :=
  JObject (Some "system") (Some DEFAULT_SYSTEM_INSTRUCTION).

(** Lines 44-49: copy the array (or start empty) and inject. *)
Definition with_system (incomingMessages : option (list JsEntry)) : list JsEntry :=
  let msgs := default [] incomingMessages in
  if existsb is_system msgs then msgs else default_instruction :: msgs.

(** Lines 51-60: trim. *)
Definition trim_history (msgs : list JsEntry) : list JsEntry :=
  if (MAX_HISTORY <? length msgs)%nat then
    match msgs with
    | m0 :: _ =>
        if is_system m0 then
          let keep := Nat.max 1 MAX_HISTORY in
          let tail := slice_from (- Z.of_nat (keep - 1)) msgs in
          m0 :: tail
        else slice_from (- Z.of_nat MAX_HISTORY) msgs
    | [] => slice_from (- Z.of_nat MAX_HISTORY) msgs
    end
  else msgs.

Definition prepareMessages (incomingMessages : option (list JsEntry)) : list JsEntry :=
  trim_history (with_system incomingMessages).
End Proxy.

(** ** Messages *)

Inductive Status := Sent | Delivered | Seen.

#[global] Instance Status_eq_dec : EqDecision Status.
Proof. solve_decision. Defined.


(** The [replyTo] object: [{ key, text, senderName }]. *)
Record ReplyRef := mkReplyRef {
  r_key : string;
  r_text : option string;
  r_senderName : option string
}.

#[global] Instance ReplyRef_eq_dec : EqDecision ReplyRef.
Proof. solve_decision. Defined.

(** A message node of the store. Every property may be absent: a partial
    [update] on a key that does not exist creates a node that has only the
    updated properties. The same record is the argument of [update]. *)
Record Message := mkMessage {
  senderId : option string;
  senderName : option string;
  senderPic : option string;
  text : option string;
  timestamp : option Z;
  status : option Status;
  replyTo : option ReplyRef
}.

#[global] Instance Message_eq_dec : EqDecision Message.
Proof. solve_decision. Defined.

Definition no_fields : Message := mkMessage None None None None None None None.

(** The object literal [{ status: s }]. *)
Definition only_status (s : Status) : Message :=
  mkMessage None None None None None (Some s) None.

(** [update(fields)] on a node: the properties present in [fields] replace
    the node's, the others stay. *)
Definition merge_fields (fields node : Message) : Message :=
  mkMessage (senderId fields ∪ senderId node)
            (senderName fields ∪ senderName node)
            (senderPic fields ∪ senderPic node)
            (text fields ∪ text node)
            (timestamp fields ∪ timestamp node)
            (status fields ∪ status node)
            (replyTo fields ∪ replyTo node).

(** [m.status = s] on the local copy of a snapshot value. *)
Definition set_status (s : Status) (m : Message) : Message :=
  mkMessage (senderId m) (senderName m) (senderPic m) (text m) (timestamp m)
            (Some s) (replyTo m).

(** ** The shared store *)

(** The [groups/{id}] document written by group creation. *)
Record GroupDoc := mkGroupDoc {
  g_id : string;
  g_name : string;
  g_members : gmap string string
}.

(** The children of a message path, by key. *)
Abbreviation Children := (list (string * Message)).

Record Store := mkStore {
  nodes : gmap string Children;              (* message path -> children *)
  typing : gmap string (gmap string bool);   (* typing path -> uid -> flag *)
  groups : gmap string GroupDoc
}.

Definition empty_store : Store := mkStore ∅ ∅ ∅.

(** Store operations the client issues. *)
Inductive Write :=
  | WSet (path key : string) (m : Message)          (* push(msg) under its new key *)
  | WUpdate (path key : string) (fields : Message)  (* ref(path/key).update(fields) *)
  | WRemove (path key : string)                     (* ref(path/key).remove() *)
  | WSetTyping (path user : string) (b : bool)      (* ref(path/user).set(b) *)
  | WSetGroup (g : GroupDoc).                       (* ref('groups/'+id).set(doc) *)

(** The snapshot of a path: its children in key order. *)
Definition children (s : Store) (p : string) : Children := default [] (nodes s !! p).

Definition child_get (k : string) (l : Children) : option Message :=
  snd <$> find (λ kv, bool_decide (kv.1 = k)) l.

(** Write the node under [k], computed from the node that is there (if any);
    children stay in key order. *)
Fixpoint child_put (k : string) (f : option Message → Message) (l : Children) : Children :=
  match l with
  | [] => [(k, f None)]
  | (k', v) :: r =>
      if decide (k = k') then (k, f (Some v)) :: r
      else if String.ltb k k' then (k, f None) :: l
      else (k', v) :: child_put k f r
  end.

Definition child_remove (k : string) (l : Children) : Children :=
  filter (λ kv, kv.1 ≠ k) l.

Definition with_children (p : string) (l : Children) (s : Store) : Store :=
  mkStore (<[p := l]> (nodes s)) (typing s) (groups s).

Definition group_chats_path (gid : string) : string := "groups/" +:+ gid +:+ "/chats".

(** The effect of one operation on the store once it is committed. *)
Definition commit (w : Write) (s : Store) : Store :=
  match w with
  | WSet p k m => with_children p (child_put k (λ _, m) (children s p)) s
  | WUpdate p k fields =>
      with_children p
        (child_put k (λ o, merge_fields fields (default no_fields o)) (children s p)) s
  | WRemove p k => with_children p (child_remove k (children s p)) s
  | WSetTyping p u b =>
      mkStore (nodes s) (<[p := <[u := b]> (default ∅ (typing s !! p))]> (typing s)) (groups s)
  | WSetGroup g =>
      mkStore (delete (group_chats_path (g_id g)) (nodes s)) (typing s)
              (<[g_id g := g]> (groups s))
  end.

(** Operations committed one after the other, first to last. *)
Definition run (ws : list Write) (s : Store) : Store := foldl (λ s w, commit w s) s ws.

Definition message_at (s : Store) (p k : string) : option Message :=
  child_get k (children s p).


(** ** The client *)

(** A rendered message: the [div] appended to [messagesEl], with its
    [data-key] and [data-path] and the snapshot value it shows. *)
Record MsgDiv := mkMsgDiv {
  dataKey : string;
  dataPath : string;
  outgoing : bool;
  shown : Message
}.

(** The delete menu element with its [dataset]. *)
Record Menu := mkMenu {
  menuDisplayed : bool;
  menuKey : option string;
  menuPath : option string;
  menuInDocument : bool
}.

(** A callback registered with [db.ref(path).on('value', ...)]. *)
Inductive Listener :=
  | OnMessages (path : string)   (* the callback of [loadMessages]; it closes over [path] *)
  | OnTyping (path : string).    (* the callback of [openChat] on the typing path *)

Definition listener_path (l : Listener) : string :=
  match l with OnMessages p => p | OnTyping p => p end.

(** The script's variables and the parts of the page it reads back. *)
Record Client := mkClient {
  currentUser : User;
  currentChatId : option string;
  isGroup : bool;
  chatUsers : list ChatUser;
  pendingReply : option ReplyRef;   (* the variable [replyTo] *)
  messageInput : string;            (* [messageInput.value] *)
  inputDisabled : bool;
  messagesEl : list MsgDiv;
  typingVisible : bool;
  replyText : string;
  replyPreviewShown : bool;
  deleteMenu : Menu;
  listeners : list Listener
}.

Definition initial_menu : Menu := mkMenu false None None true.

(** The state after sign-in, before any chat is opened. *)
Definition signed_in (u : User) : Client :=
  mkClient u None false [] None "" true [] false "" false initial_menu [].

Definition set_view (v : list MsgDiv) (c : Client) : Client :=
  mkClient (currentUser c) (currentChatId c) (isGroup c) (chatUsers c) (pendingReply c)
    (messageInput c) (inputDisabled c) v (typingVisible c) (replyText c)
    (replyPreviewShown c) (deleteMenu c) (listeners c).

Definition set_listeners (ls : list Listener) (c : Client) : Client :=
  mkClient (currentUser c) (currentChatId c) (isGroup c) (chatUsers c) (pendingReply c)
    (messageInput c) (inputDisabled c) (messagesEl c) (typingVisible c) (replyText c)
    (replyPreviewShown c) (deleteMenu c) ls.

Definition set_menu (m : Menu) (c : Client) : Client :=
  mkClient (currentUser c) (currentChatId c) (isGroup c) (chatUsers c) (pendingReply c)
    (messageInput c) (inputDisabled c) (messagesEl c) (typingVisible c) (replyText c)
    (replyPreviewShown c) m (listeners c).

Definition set_typingVisible (b : bool) (c : Client) : Client :=
  mkClient (currentUser c) (currentChatId c) (isGroup c) (chatUsers c) (pendingReply c)
    (messageInput c) (inputDisabled c) (messagesEl c) b (replyText c)
    (replyPreviewShown c) (deleteMenu c) (listeners c).

Definition set_input (v : string) (c : Client) : Client :=
  mkClient (currentUser c) (currentChatId c) (isGroup c) (chatUsers c) (pendingReply c)
    v (inputDisabled c) (messagesEl c) (typingVisible c) (replyText c)
    (replyPreviewShown c) (deleteMenu c) (listeners c).

(** What string concatenation prints for [currentChatId]. *)
Definition chat_str (c : Client) : string := default "null" (currentChatId c).

(** [isGroup ? `groups/${currentChatId}/chats` : `chats/${currentChatId}`] *)
Definition messages_path (c : Client) : string :=
  if isGroup c then group_chats_path (chat_str c) else "chats/" +:+ chat_str c.

Definition typing_path (c : Client) : string := "typing/" +:+ chat_str c.

(** [db.ref(p).off()]: every callback registered on [p] is removed. *)
Definition off (p : string) (ls : list Listener) : list Listener :=
  filter (λ l, listener_path l ≠ p) ls.

(** [db.ref(p).on('value', cb)] *)
Definition on (l : Listener) (ls : list Listener) : list Listener := ls ++ [l].

(** [loadMessages], lines 262-265: the path is computed from the current
    value of [currentChatId]. *)
Definition loadMessages (c : Client) : Client :=
  let path := messages_path c in
  set_listeners (on (OnMessages path) (off path (listeners c))) c.

(** [openChat(users, gid)] *)
Definition openChat (users : list ChatUser) (gid : option string) (c : Client) : Client :=
  let c1 :=
    mkClient (currentUser c)
      (Some (chatIdOf users gid (currentUser c)))
      (1 <? length users)%nat
      (chatUsersOf users (currentUser c))
      (pendingReply c) (messageInput c) false (messagesEl c) (typingVisible c)
      (replyText c) (replyPreviewShown c) (deleteMenu c) (listeners c) in
  let c2 := loadMessages c1 in
  set_listeners (on (OnTyping (typing_path c2)) (off (typing_path c2) (listeners c2))) c2.

(** One iteration of [snap.forEach] in the callback of [loadMessages]: the
    rendered element and the store operations issued. *)
Definition render_one (me path : string) (km : string * Message) : MsgDiv * list Write :=
  let '(k, m) := km in
  let mine := bool_decide (senderId m = Some me) in
  if negb mine && negb (bool_decide (status m = Some Seen)) then
    (mkMsgDiv k path mine (set_status Seen m), [WUpdate path k (only_status Seen)])
  else
    (mkMsgDiv k path mine m, []).

(** One run of the callback of [loadMessages] on a snapshot, taken on its
    own: line 266 and the iterations of [snap.forEach], with the [update]
    calls of line 269 returned as the operations issued. What the page
    shows when [update] runs the callback again before it returns is
    [page_callback] below. *)
Definition onMessagesValue (path : string) (snap : Children) (c : Client) : Client * list Write :=
  let rs := render_one (uid (currentUser c)) path <$> snap in
  (set_view (fst <$> rs) c, concat (snd <$> rs)).

(** The callback on the typing path. *)
Definition onTypingValue (d : gmap string bool) (c : Client) : Client :=
  let someone :=
    existsb (λ ub : string * bool, bool_decide (ub.1 ≠ uid (currentUser c)) && ub.2)
            (map_to_list d) in
  set_typingVisible someone c.

(** The store calls one registered callback with the current value. *)
Definition fire (l : Listener) (s : Store) (c : Client) : Client * list Write :=
  match l with
  | OnMessages p => onMessagesValue p (children s p) c
  | OnTyping p => (onTypingValue (default ∅ (typing s !! p)) c, [])
  end.

(** A value event on path [p]: every callback the client has registered on
    [p] runs, in registration order. *)
Definition notify (p : string) (s : Store) (c : Client) : Client * list Write :=
  foldl (λ (acc : Client * list Write) l,
           if decide (listener_path l = p)
           then let '(c', ws) := fire l s acc.1 in (c', acc.2 ++ ws)
           else acc)
        (c, []) (listeners c).

(** ** The message callback on the page *)

(** The store applies a call of the page to the page's copy of the data
    before the call returns and, when the data under a path changed, runs
    the value callbacks of that path from inside the call. So the [update]
    of line 269 runs the callback of [loadMessages] again while the outer
    run is still inside [snap.forEach]: the inner run empties [messagesEl]
    (line 266) and fills it from the newer data, and the outer run goes on
    with its own, older snapshot and appends after it (line 286). An
    [update] that changes nothing raises no event.

    The state of a run is the children of [messagesEl], the page's copy of
    the data, and the store calls issued so far, in order. *)
Definition PageRun : Type := list MsgDiv * Store * list Write.

(** One iteration of [snap.forEach] on the page, lines 267-286; [rerun] is
    the run of the callback that [update] starts. *)
Definition page_entry (rerun : Store → PageRun) (me path : string)
    (acc : PageRun) (km : string * Message) : PageRun :=
  let mine := bool_decide (senderId km.2 = Some me) in
  if negb mine && negb (bool_decide (status km.2 = Some Seen)) then
    let w := WUpdate path km.1 (only_status Seen) in
    let cur := commit w acc.1.2 in
    let inner :=
      if decide (children cur path = children acc.1.2 path)
      then (acc.1.1, cur, [])
      else rerun cur in
    (inner.1.1 ++ [mkMsgDiv km.1 path mine (set_status Seen km.2)],
     inner.1.2, acc.2 ++ w :: inner.2)
  else (acc.1.1 ++ [mkMsgDiv km.1 path mine km.2], acc.1.2, acc.2).

(** [page_callback fuel me path s] is one run of the callback over the
    page's copy [s], with the runs nested in it. [fuel] bounds the depth of
    nesting; every nested run starts from a copy with one more message
    Seen. *)
Fixpoint page_callback (fuel : nat) (me path : string) (s : Store) : PageRun :=
  match fuel with
  | 0 => ([], s, [])
  | S fuel' =>
      foldl (page_entry (page_callback fuel' me path) me path) ([], s, []) (children s path)
  end.

(** The depth of nesting is at most the number of messages. *)
Definition page_render (me path : string) (s : Store) : PageRun :=
  page_callback (S (length (children s path))) me path s.

(** ** Sending and replying *)

(** [handleReplyClick(m, k)]: [m] is the value the element shows. When the
    message has no text, [m.text.slice] raises after [replyTo] was assigned,
    and the preview is left as it was. *)
Definition handleReplyClick (m : Message) (k : string) (c : Client) : Client :=
  let r := mkReplyRef k (text m) (senderName m) in
  match text m with
  | Some t =>
      mkClient (currentUser c) (currentChatId c) (isGroup c) (chatUsers c) (Some r)
        (messageInput c) (inputDisabled c) (messagesEl c) (typingVisible c)
        (js_str (senderName m) +:+ ": " +:+ String.substring 0 50 t)
        true (deleteMenu c) (listeners c)
  | None =>
      mkClient (currentUser c) (currentChatId c) (isGroup c) (chatUsers c) (Some r)
        (messageInput c) (inputDisabled c) (messagesEl c) (typingVisible c)
        (replyText c) (replyPreviewShown c) (deleteMenu c) (listeners c)
  end.

(** [cancelReply()] *)
Definition cancelReply (c : Client) : Client :=
  mkClient (currentUser c) (currentChatId c) (isGroup c) (chatUsers c) None
    (messageInput c) (inputDisabled c) (messagesEl c) (typingVisible c)
    (replyText c) false (deleteMenu c) (listeners c).

(** The reference returned by [push]: the new child's path and key. *)
Record Pushed := mkPushed {
  pushedPath : string;
  pushedKey : string
}.

(** How the promise of a [push] settles. *)
Inductive Settled := Fulfilled | Rejected.

(** The message object built on line 300-301. *)
Definition new_message (now : Z) (txt : string) (c : Client) : Message :=
  mkMessage (Some (uid (currentUser c)))
            (Some (displayName (currentUser c)))
            (Some (or_else (photoURL (currentUser c)) ""))
            (Some txt) (Some now) (Some Sent) (pendingReply c).

(** [push(msg)] checks its argument before anything is written and raises
    when a property of it, at any depth, is [undefined]. Of the properties
    of the message built on lines 300-301 only those of [replyTo] can be:
    [handleReplyClick] copies [m.text] and [m.senderName] as they are. *)
Definition pushable (o : option ReplyRef) : bool :=
  match o with
  | Some r => bool_decide (is_Some (r_text r)) && bool_decide (is_Some (r_senderName r))
  | None => true
  end.

(** [sendBtn.onclick]. [now] is [Date.now()] and [key] the key [push]
    generates. The result is what the statements of the handler do to the
    script's variables and to the input box, the store operations it
    issues, and the pushed reference whose promise is pending. The handler
    returns on a blank input (line 299), and it is left on line 302 when
    [push] raises: in both cases nothing is issued, no reference is
    returned and lines 303-304 do not run. The value callbacks the store
    runs for the appended message are events of their own ([notify]) and
    not part of the result. *)
Definition sendBtn_onclick (now : Z) (key : string) (c : Client)
  : Client * list Write * option Pushed :=
  let txt := trim (messageInput c) in
  if decide (txt = "") then (c, [], None)
  else if pushable (pendingReply c) then
    let msg := new_message now txt c in
    let path := messages_path c in
    (cancelReply (set_input "" c),
     [WSet path key msg; WSetTyping (typing_path c) (uid (currentUser c)) false],
     Some (mkPushed path key))
  else (c, [], None).

(** The handler is left by the exception of [push]. *)
Definition send_raises (c : Client) : bool :=
  bool_decide (trim (messageInput c) ≠ "") && negb (pushable (pendingReply c)).

(** [ref.then(r => r.update({ status: 'Delivered' }))]: the only
    continuation attached to the promise; nothing is attached for a
    rejection. *)
Definition push_then (r : Pushed) (o : Settled) : list Write :=
  match o with
  | Fulfilled => [WUpdate (pushedPath r) (pushedKey r) (only_status Delivered)]
  | Rejected => []
  end.

(** ** Deleting *)

Definition hide_menu (c : Client) : Client :=
  let m := deleteMenu c in
  set_menu (mkMenu false (menuKey m) (menuPath m) (menuInDocument m)) c.

(** [showDeleteMenu(x, y, el)] for a rendered message [el]. *)
Definition showDeleteMenu (el : MsgDiv) (c : Client) : Client :=
  set_menu (mkMenu true (Some (dataKey el)) (Some (dataPath el))
                   (menuInDocument (deleteMenu c))) c.

(** The elements of the page that can carry a [data-key] attribute. *)
Inductive Element :=
  | EMessage (i : nat)   (* the [i]-th child of [messagesEl] *)
  | EDeleteMenu.

(** [document.querySelector(`[data-key="${k}"]`)]: the first match in
    document order; the children of [messagesEl] precede the delete menu. *)
Definition querySelector_dataKey (k : string) (c : Client) : option Element :=
  match list_find (λ d, dataKey d = k) (messagesEl c) with
  | Some (i, _) => Some (EMessage i)
  | None =>
      if menuInDocument (deleteMenu c) && bool_decide (menuKey (deleteMenu c) = Some k)
      then Some EDeleteMenu else None
  end.

(** [delForMe.onclick]; [None] when [querySelector] returns [null] and
    [.remove()] raises, leaving the state as it was. *)
Definition delForMe_onclick (c : Client) : option Client :=
  match querySelector_dataKey (js_str (menuKey (deleteMenu c))) c with
  | Some (EMessage i) => Some (hide_menu (set_view (delete i (messagesEl c)) c))
  | Some EDeleteMenu =>
      let m := deleteMenu c in
      Some (hide_menu (set_menu (mkMenu (menuDisplayed m) (menuKey m) (menuPath m) false) c))
  | None => None
  end.

(** [delForAll.onclick] *)
Definition delForAll_onclick (c : Client) : Client * list Write :=
  (hide_menu c,
   [WRemove (js_str (menuPath (deleteMenu c))) (js_str (menuKey (deleteMenu c)))]).

(** ** Group creation *)

(** [createGroupBtn.onclick]: the document written, or [None] when one of
    the two checks alerts and returns. *)
Definition createGroupBtn_onclick (nameInput : string) (selected : list ChatUser)
    (c : Client) : option Write :=
  let name := trim nameInput in
  if decide (name = "") then None
  else if (length selected <? 1)%nat then None
  else
    let members := groupMembers selected (currentUser c) in
    Some (WSetGroup
            (mkGroupDoc (groupIdOf selected (currentUser c)) name
               (foldl (λ o u, <[cu_uid u := cu_name u]> o) ∅ members))).

(** ** Several clients over one store *)

Record Sys := mkSys {
  store : Store;
  clients : gmap string Client   (* by user id *)
}.

Definition view_of (u : string) (y : Sys) : option (list MsgDiv) :=
  messagesEl <$> clients y !! u.

(** User [u] clicks "Delete for me". *)
Definition click_delForMe (u : string) (y : Sys) : Sys * list Write :=
  match clients y !! u ≫= delForMe_onclick with
  | Some c' => (mkSys (store y) (<[u := c']> (clients y)), [])
  | None => (y, [])
  end.

(** User [u] clicks "Delete for everyone". *)
Definition click_delForAll (u : string) (y : Sys) : Sys * list Write :=
  match clients y !! u with
  | Some c =>
      let '(c', ws) := delForAll_onclick c in
      (mkSys (store y) (<[u := c']> (clients y)), ws)
  | None => (y, [])
  end.

(** The store commits an operation. *)
Definition sys_commit (w : Write) (y : Sys) : Sys :=
  mkSys (commit w (store y)) (clients y).

(** The store delivers a value event on path [p] to user [u]. *)
Definition deliver (u p : string) (y : Sys) : Sys * list Write :=
  match clients y !! u with
  | Some c =>
      let '(c', ws) := notify p (store y) c in
      (mkSys (store y) (<[u := c']> (clients y)), ws)
  | None => (y, [])
  end.

(** The message with key [k] is shown in a view. *)
Definition shows (k : string) (v : list MsgDiv) : Prop := ∃ d, d ∈ v ∧ dataKey d = k.

(** ** Status monotonicity, as a property of a schedule of writes *)

(** The two status writes the clients issue. *)
Definition is_status_write (w : Write) : Prop :=
  ∃ p k st, w = WUpdate p k (only_status st) ∧ (st = Delivered ∨ st = Seen).





(** ** Concrete inputs used below *)

(** Twenty-five user messages and no instruction. *)
Definition long_history : list JsEntry :=
  replicate 25 (JObject (Some "user") (Some "hi")).


Definition alice : User := mkUser "u1" "A" None.
Definition bob : User := mkUser "u2" "B" None.
Definition carol : User := mkUser "u3" "C" None.

(** A opens the chat with B and types "hi"; B opens the chat with A. *)
Definition alice_typed : Client :=
  set_input "hi" (openChat [self_entry bob] None (signed_in alice)).
Definition bob_open : Client := openChat [self_entry alice] None (signed_in bob).

(** A sends at t = 100; the store gives the message the key "m1". *)
Definition alice_send : Client * list Write * option Pushed :=
  sendBtn_onclick 100 "m1" alice_typed.
Definition alice_send_writes : list Write := alice_send.1.2.
Definition alice_pushed : Pushed := default (mkPushed "" "") alice_send.2.

(** The store once the append is committed. *)
Definition store_sent : Store := run alice_send_writes empty_store.

(** B's client is notified of the new message and renders it. *)
Definition bob_notified : Client * list Write := notify "chats/u1_u2" store_sent bob_open.
Definition bob_writes : list Write := bob_notified.2.

(** A's client learns that the append succeeded. *)
Definition alice_ack_writes : list Write := push_then alice_pushed Fulfilled.

(** The interleaving in which B's Seen update is committed before A's
    Delivered update. *)
Definition seen_then_delivered : list Write := bob_writes ++ alice_ack_writes.


(** A, with the chat with B open, opens the chat with C. *)
Definition alice_switched : Client := openChat [self_entry carol] None alice_typed.

(** B sends "yo" to A afterwards, and B starts typing. *)
Definition bob_send : Client * list Write * option Pushed :=
  sendBtn_onclick 200 "m2" (set_input "yo" bob_open).
Definition store_after_switch : Store :=
  commit (WSetTyping "typing/u1_u2" "u2" true) (run bob_send.1.2 empty_store).

(** The store notifies A's client of the changes under the paths of the
    chat with B. *)
Definition alice_stale_messages : Client * list Write :=
  notify "chats/u1_u2" store_after_switch alice_switched.
Definition alice_stale_typing : Client * list Write :=
  notify "typing/u1_u2" store_after_switch alice_switched.

(** B has rendered A's message "m1" and opens the delete menu on it; A's
    client shows the message too. *)
Definition bob_menu : Client :=
  match messagesEl bob_notified.1 with
  | el :: _ => showDeleteMenu el bob_notified.1
  | [] => bob_notified.1
  end.
Definition alice_rendered : Client := (notify "chats/u1_u2" store_sent alice_send.1.1).1.
Definition two_clients : Sys :=
  mkSys (run bob_writes store_sent) {[ "u1" := alice_rendered; "u2" := bob_menu ]}.

(** A opens the delete menu on her own message "m1"; B shows it too. *)
Definition alice_menu : Client :=
  match messagesEl alice_rendered with
  | el :: _ => showDeleteMenu el alice_rendered
  | [] => alice_rendered
  end.
Definition both_showing : Sys :=
  mkSys (run bob_writes store_sent) {[ "u1" := alice_menu; "u2" := bob_notified.1 ]}.

(** B's page when the store tells it of "m1", with the nested run of the
    callback; B opens the delete menu on the first element of the view. *)
Definition bob_page : PageRun :=
  page_render "u2" "chats/u1_u2" store_sent.
Definition bob_page_menu : Client :=
  match bob_page.1.1 with
  | el :: _ => showDeleteMenu el (set_view bob_page.1.1 bob_open)
  | [] => set_view bob_page.1.1 bob_open
  end.
Definition bob_page_sys : Sys :=
  mkSys bob_page.1.2 {[ "u1" := alice_rendered; "u2" := bob_page_menu ]}.

(** Two messages of A that B has not seen, and one of B's own. *)
Definition three_messages : Store :=
  run [WSet "chats/u1_u2" "m1"
         (mkMessage (Some "u1") (Some "A") (Some "") (Some "one") (Some 1%Z) (Some Sent) None);
       WSet "chats/u1_u2" "m2"
         (mkMessage (Some "u1") (Some "A") (Some "") (Some "two") (Some 2%Z) (Some Sent) None);
       WSet "chats/u1_u2" "m3"
         (mkMessage (Some "u2") (Some "B") (Some "") (Some "three") (Some 3%Z) (Some Sent) None)]
      empty_store.

(** The reply scenario: B's message "m5" with body "lunch?" is shown in A's
    view; A replies "sure", which the store appends under "m6". *)
Definition lunch : Message :=
  mkMessage (Some "u2") (Some "B") (Some "") (Some "lunch?") (Some 90%Z) (Some Seen) None.
Definition alice_replying : Client :=
  set_input "sure" (handleReplyClick lunch "m5" alice_send.1.1).
Definition alice_reply : Client * list Write * option Pushed :=
  sendBtn_onclick 120 "m6" alice_replying.
Definition store_with_reply : Store :=
  run alice_reply.1.2 (commit (WSet "chats/u1_u2" "m5" lunch) empty_store).

(** A message stored without a text, and A's reply to it, typed but not
    sent. *)
Definition textless : Message :=
  mkMessage (Some "u2") (Some "B") (Some "") None (Some 90%Z) (Some Seen) None.
Definition alice_replying_textless : Client :=
  set_input "sure" (handleReplyClick textless "m5" alice_send.1.1).

(** A message of sixty characters, and a reply to it. *)
Definition sixty : string :=
  "012345678901234567890123456789012345678901234567890123456789".
Definition long_message : Message :=
  mkMessage (Some "u2") (Some "B") (Some "") (Some sixty) (Some 90%Z) (Some Seen) None.
Definition long_reply : Client * list Write * option Pushed :=
  sendBtn_onclick 120 "m6"
    (set_input "sure" (handleReplyClick long_message "m5" alice_send.1.1)).

(** ** Well-formed stores *)

(** The strict order of keys. *)
Definition str_lt (a b : string) : Prop := String.ltb a b = true.

(** The children of a path are listed by strictly increasing key. *)
Definition keys_sorted (l : Children) : Prop := StronglySorted str_lt (l.*1).

Definition store_wf (s : Store) : Prop := ∀ p, keys_sorted (children s p).

(** The gate of the Seen update, as a predicate on snapshot entries. *)
Definition unseen_for (me : string) (km : string * Message) : Prop :=
  senderId km.2 ≠ Some me ∧ status km.2 ≠ Some Seen.

#[global] Instance unseen_for_dec me km : Decision (unseen_for me km).
Proof. unfold unseen_for. apply _. Defined.

(** An iteration of the callback whose [update], if it makes one, changes
    nothing in the page's copy [L]: the message does not pass the gate, or
    the copy has it Seen already. *)
Definition quiet_for (me : string) (L : Children) (km : string * Message) : Prop :=
  ¬ unseen_for me km ∨ ∃ m', (km.1, m') ∈ L ∧ status m' = Some Seen.

(** What a snapshot becomes once the Seen updates a client with user id
    [me] issues for it are committed. *)
Definition seen_by (me : string) (l : Children) : Children :=
  (λ km : string * Message,
     (km.1, if negb (bool_decide (senderId km.2 = Some me))
               && negb (bool_decide (status km.2 = Some Seen))
            then set_status Seen km.2 else km.2)) <$> l.

(** ** The typing timer *)

(** The timers of the page: the variable [typingTimeout], the timers that
    were set and have neither run nor been cleared, and the id the next
    [setTimeout] returns. *)
Record Timers := mkTimers {
  typingTimeout : option nat;
  armed : list nat;
  nextTimer : nat
}.

Definition no_timers : Timers := mkTimers None [] 0.

(** [clearTimeout(t)] *)
Definition clearTimeout (t : option nat) (l : list nat) : list nat :=
  match t with
  | Some i => filter (λ j, j ≠ i) l
  | None => l
  end.

Definition typing_write (c : Client) (b : bool) : Write :=
  WSetTyping (typing_path c) (uid (currentUser c)) b.

(** The 'input' listener of [messageInput], lines 292-296. *)
Definition messageInput_oninput (c : Client) (t : Timers) : Timers * list Write :=
  (mkTimers (Some (nextTimer t))
            (clearTimeout (typingTimeout t) (armed t) ++ [nextTimer t])
            (S (nextTimer t)),
   [typing_write c true]).

(** Timer [i] runs its callback, if it is still armed; the callback reads
    [currentChatId] when it runs. *)
Definition typing_timer_fires (i : nat) (c : Client) (t : Timers) : Timers * list Write :=
  if decide (i ∈ armed t)
  then (mkTimers (typingTimeout t) (filter (λ j, j ≠ i) (armed t)) (nextTimer t),
        [typing_write c false])
  else (t, []).

(** What happens around the input box, with the client state at that time. *)
Inductive TypingEvent :=
  | Typed (c : Client)
  | TimerRuns (i : nat) (c : Client).

Definition typing_step (e : TypingEvent) (t : Timers) : Timers * list Write :=
  match e with
  | Typed c => messageInput_oninput c t
  | TimerRuns i c => typing_timer_fires i c t
  end.

Fixpoint typing_run (es : list TypingEvent) (t : Timers) : Timers * list Write :=
  match es with
  | [] => (t, [])
  | e :: es' =>
      let '(t1, ws1) := typing_step e t in
      let '(t2, ws2) := typing_run es' t1 in
      (t2, ws1 ++ ws2)
  end.

Definition is_timer_event (e : TypingEvent) : Prop :=
  match e with TimerRuns _ _ => True | Typed _ => False end.

(** At most one timer is armed, and it is the one in [typingTimeout]. *)
Definition timers_ok (t : Timers) : Prop :=
  armed t = [] ∨ ∃ i, armed t = [i] ∧ typingTimeout t = Some i.

(** The typing flag of user [u] under a typing path. *)
Definition typing_flag (s : Store) (p u : string) : option bool :=
  typing s !! p ≫= λ d, d !! u.

(** ** The group list *)

#[global] Instance entry_le_dec : RelDecision (λ a b : string * string, str_le a.1 b.1).
Proof. intros a b. apply _. Defined.

(** [Object.entries(g.members)]: the member mapping as the store delivers
    it, by key. *)
Definition member_entries (g : GroupDoc) : list (string * string) :=
  merge_sort (λ a b : string * string, str_le a.1 b.1) (map_to_list (g_members g)).

(** The check of [loadGroups]: [g.members] exists and has the user's id. *)
Definition group_listed (me : User) (g : GroupDoc) : bool :=
  bool_decide (is_Some (g_members g !! uid me)).

(** The group items [loadGroups] renders from a snapshot of [groups]. *)
Definition loadGroups_items (snap : list GroupDoc) (c : Client) : list GroupDoc :=
  filter (λ g, group_listed (currentUser c) g = true) snap.

(** The [users] array built when a group item is clicked. *)
Definition group_users (g : GroupDoc) (me : User) : list ChatUser :=
  (λ un : string * string, mkChatUser un.1 un.2)
    <$> filter (λ un : string * string, un.1 ≠ uid me) (member_entries g).

(** The click handler of a group item: [openChat(users, g.id)]. *)
Definition groupItem_onclick (g : GroupDoc) (c : Client) : Client :=
  openChat (group_users g (currentUser c)) (Some (g_id g)) c.

(** The group A creates with B and C. *)
Definition lunch_group : GroupDoc :=
  match createGroupBtn_onclick "Lunch" [mkChatUser "u2" "B"; mkChatUser "u3" "C"] alice_typed with
  | Some (WSetGroup g) => g
  | _ => mkGroupDoc "" "" ∅
  end.

(** The group A creates with B alone. *)
Definition pair_group : GroupDoc :=
  match createGroupBtn_onclick "Pair" [mkChatUser "u2" "B"] alice_typed with
  | Some (WSetGroup g) => g
  | _ => mkGroupDoc "" "" ∅
  end.

(** ** Leaving a conversation *)

(** [backBtn.onclick], lines 255-259. *)
Definition backBtn_onclick (c : Client) : Client * list Write :=
  (mkClient (currentUser c) (currentChatId c) (isGroup c) (chatUsers c) (pendingReply c)
     "" true [] false (replyText c) (replyPreviewShown c) (deleteMenu c) (listeners c),
   [typing_write c false]).

(** The writes of a value event, by callback. *)
Definition writes_of (me : string) (s : Store) (l : Listener) : list Write :=
  match l with
  | OnMessages q => concat ((render_one me q <$> children s q).*2)
  | OnTyping _ => []
  end.

(** A string of white space only (or empty). *)
Definition blank (s : string) : Prop :=
  Forall (λ ch, is_space ch = true) (String.list_ascii_of_string s).

(** ** The request body of [/api/query] *)

(** The two fields of the body the handler reads: [messages] when it is an
    array, [message] when it is a string. *)
Record QueryBody := mkQueryBody {
  b_messages : option (list JsEntry);
  b_message : option string
}.

(** Lines 105-112: the message list to prepare, or [None] for the 400
    answer. *)
Definition select_messages (b : QueryBody) : option (list JsEntry) :=
  match b_messages b with
  | Some (m :: l) => Some (m :: l)
  | _ =>
      match b_message b with
      | Some s => if decide (s = "") then None else Some [JObject (Some "user") (Some s)]
      | None => None
      end
  end.

(** Line 115: [prepareMessages(messages)]. *)
Definition prepared_for (instruction : string) (b : QueryBody) : option (list JsEntry) :=
  (λ l, prepareMessages instruction (Some l)) <$> select_messages b.

(** Twenty-six messages with an instruction in second place. *)
Definition buried_instruction : list JsEntry :=
  JObject (Some "user") (Some "hi") :: JObject (Some "system") (Some "be brief")
    :: replicate 24 (JObject (Some "user") (Some "hi")).

(** ** Detecting a video link ([server.js]) *)

(** The code units of a string. *)
Abbreviation chars := String.list_ascii_of_string.

Definition is_upper (c : ascii) : bool :=
  let n := nat_of_ascii c in (65 <=? n)%nat && (n <=? 90)%nat.

(** Case folding, as the flag [i] compares a character with an ASCII
    pattern character: only the ASCII letters fold. *)
Definition lower (c : ascii) : ascii :=
  if is_upper c then ascii_of_nat (nat_of_ascii c + 32) else c.

Definition ci_eqb (p c : ascii) : bool := bool_decide (lower p = lower c).

(** The class [[A-Za-z0-9_-]]. *)
Definition is_id_char (c : ascii) : bool :=
  let n := nat_of_ascii c in
  ((65 <=? n)%nat && (n <=? 90)%nat) || ((97 <=? n)%nat && (n <=? 122)%nat)
  || ((48 <=? n)%nat && (n <=? 57)%nat) || (n =? 95)%nat || (n =? 45)%nat.

(** A piece of the pattern, given the matcher of what follows it: from an
    input it yields the captured group of the first successful way to
    match, as a backtracking matcher finds it. *)
Definition Matcher := list ascii → option (list ascii).

(** A literal, compared without regard to case. *)
Fixpoint lit (p : list ascii) (k : Matcher) (s : list ascii) : option (list ascii) :=
  match p with
  | [] => k s
  | pc :: p' =>
      match s with
      | c :: s' => if ci_eqb pc c then lit p' k s' else None
      | [] => None
      end
  end.

(** [(?: ... )?]: with the group first, without it when that fails. *)
Definition opt (m : Matcher → Matcher) (k : Matcher) : Matcher :=
  λ s, match m k s with Some r => Some r | None => k s end.

(** [a|b]: the left alternative first. *)
Definition alt (m1 m2 : Matcher → Matcher) (k : Matcher) : Matcher :=
  λ s, match m1 k s with Some r => Some r | None => m2 k s end.

(** [([A-Za-z0-9_-]{n})] at the end of the pattern: the captured group. *)
Fixpoint take_id (n : nat) (s : list ascii) : option (list ascii) :=
  match n with
  | 0 => Some []
  | S n' =>
      match s with
      | c :: s' => if is_id_char c then (c ::.) <$> take_id n' s' else None
      | [] => None
      end
  end.

(** [ytRegex] tried at the start of the input:
    [(?:https?:\/\/)?(?:www\.)?(?:youtube\.com\/watch\?v=|youtu\.be\/)([A-Za-z0-9_-]{11})]
    with the flag [i]. *)
Definition ytRegex_at : Matcher :=
  opt (λ k, lit (chars "http") (opt (lit (chars "s")) (lit (chars "://") k)))
    (opt (lit (chars "www."))
       (alt (lit (chars "youtube.com/watch?v=")) (lit (chars "youtu.be/")) (take_id 11))).

(** [text.match(ytRegex)]: the first start position with a match; the
    result is the group [m[1]]. *)
Fixpoint regex_search (s : list ascii) : option (list ascii) :=
  match ytRegex_at s with
  | Some id => Some id
  | None =>
      match s with
      | [] => None
      | _ :: r => regex_search r
      end
  end.

Definition embed_url (id : list ascii) : string :=
  "https://www.youtube.com/embed/" +:+ String.string_of_list_ascii id.

(** [detectYouTubeEmbed(text)]; [None] as argument stands for a value that
    is not a string. *)
Definition detectYouTubeEmbed (text : option string) : option string :=
  match text with
  | None => None
  | Some t => if decide (t = "") then None else embed_url <$> regex_search (chars t)
  end.

(** *** A plain scan for the first link *)

(** [l] without the prefix [p], when [l] begins with [p] up to case. *)
Definition ci_strip (p l : list ascii) : option (list ascii) :=
  if decide (lower <$> take (length p) l = lower <$> p)
  then Some (drop (length p) l) else None.

(** The video id of a link that begins at the start of [l]: one of the two
    host forms and eleven id characters. *)
Definition link_at (l : list ascii) : option (list ascii) :=
  (ci_strip (chars "youtube.com/watch?v=") l ≫= take_id 11)
  ∪ (ci_strip (chars "youtu.be/") l ≫= take_id 11).

(** The video id of the first link in [l]. *)
Fixpoint first_link (l : list ascii) : option (list ascii) :=
  match link_at l with
  | Some id => Some id
  | None =>
      match l with
      | [] => None
      | _ :: r => first_link r
      end
  end.

(** A text holds a link with video id [id]: one of the two host forms, in
    any case, followed by the eleven id characters. *)
Definition holds_link (l id : list ascii) : Prop :=
  ∃ pre host post,
    l = pre ++ host ++ id ++ post ∧
    (lower <$> host = chars "youtube.com/watch?v=" ∨ lower <$> host = chars "youtu.be/") ∧
    length id = 11 ∧ Forall (λ c, is_id_char c = true) id.

(** ** Reading the reply out of the completion response ([server.js]) *)

From stdpp Require pretty.

Section Reply.
(** JSON numbers with the two things the code does to them: the truth test
    and [String(n)]. *)
Variable Num : Type.
Variable num_truthy : Num → bool.
Variable num_string : Num → string.

(** A value produced by [response.json()]. The fields of an object are in
    source order; a repeated key takes its last value. *)
#[warnings="-register-all"]
Inductive Json :=
  | JNull
  | JBool (b : bool)
  | JNum (n : Num)
  | JStr (s : string)
  | JArr (l : list Json)
  | JObj (fields : list (string * Json)).

Definition truthy (v : Json) : bool :=
  match v with
  | JNull => false
  | JBool b => b
  | JNum n => num_truthy n
  | JStr s => negb (bool_decide (s = ""))
  | JArr _ | JObj _ => true
  end.

(** [v.name] for the names the code reads ([choices], [message], [content],
    [output], [text]), none of which a string, array, number or boolean
    has; [None] is [undefined]. *)
Definition prop (name : string) (v : Json) : option Json :=
  match v with
  | JObj fields => snd <$> find (λ kv, bool_decide (kv.1 = name)) (reverse fields)
  | _ => None
  end.

(** [v[0]] *)
Definition index0 (v : Json) : option Json :=
  match v with
  | JArr l => head l
  | JStr (String c _) => Some (JStr (String c ""))
  | JObj _ => prop "0" v
  | _ => None
  end.

Definition is_array (v : Json) : bool :=
  match v with JArr _ => true | _ => false end.

(** [a && f(a)]: the value of the chain when every link is truthy. *)
Definition and_then (o : option Json) (f : Json → option Json) : option Json :=
  match o with
  | Some v => if truthy v then f v else None
  | None => None
  end.

(** [String(v)] *)
Fixpoint to_String (v : Json) : string :=
  match v with
  | JNull => "null"
  | JBool true => "true"
  | JBool false => "false"
  | JNum n => num_string n
  | JStr s => s
  | JArr l =>
      (fix elements (l : list Json) : string :=
         match l with
         | [] => ""
         | x :: r =>
             let e := match x with JNull => "" | _ => to_String x end in
             match r with
             | [] => e
             | _ :: _ => e +:+ "," +:+ elements r
             end
         end) l
  | JObj _ => "[object Object]"
  end.

(** The three shapes tried in turn, lines 66, 70 and 74: the text value
    when the condition holds. *)
Definition message_content (hfResp : Json) : option Json :=
  and_then (Some hfResp) (λ r,
  and_then (prop "choices" r) (λ ch,
  and_then (index0 ch) (λ c0,
  and_then (prop "message" c0) (λ m,
  and_then (prop "content" m) Some)))).

Definition output_content (hfResp : Json) : option Json :=
  and_then (Some hfResp) (λ r,
  and_then (prop "output" r) (λ out,
  if is_array out
  then and_then (index0 out) (λ o0, and_then (prop "content" o0) Some)
  else None)).

Definition choice_text (hfResp : Json) : option Json :=
  and_then (Some hfResp) (λ r,
  and_then (prop "choices" r) (λ ch,
  and_then (index0 ch) (λ c0,
  and_then (prop "text" c0) Some))).

(** [if (txt && String(txt).trim().length > 0) return String(txt).trim();
    return null;] for a truthy [txt]. *)
Definition trimmed_text (txt : Json) : option string :=
  let s := trim (to_String txt) in
  if decide (s = "") then None else Some s.

(** [extractReplyText(hfResp)], lines 64-84. *)
Definition extractReplyText (hfResp : Json) : option string :=
  match message_content hfResp with
  | Some txt => trimmed_text txt
  | None =>
      match output_content hfResp with
      | Some txt => trimmed_text txt
      | None =>
          match choice_text hfResp with
          | Some txt => trimmed_text txt
          | None => None
          end
      end
  end.

(** Lines 126-139: the reply text, with the fallback when none was found,
    and the embed URL when the reply holds a link. *)
Definition reply_payload (fallback : string) (hfResp : Json) : string * option string :=
  let replyText := default fallback (extractReplyText hfResp) in
  (replyText, detectYouTubeEmbed (Some replyText)).
End Reply.

(** A response in the usual shape, with numbers as integers. *)
Definition usual_response (content : string) : Json Z :=
  JObj Z [("id", JStr Z "cmpl-1");
          ("choices", JArr Z [JObj Z [("index", JNum Z 0%Z);
                                      ("message", JObj Z [("role", JStr Z "assistant");
                                                          ("content", JStr Z content)])]])].
(** * Properties *)

(** ** The order of [sort()] and the uniqueness of its result *)

Lemma ascii_compare_refl (a : ascii) : Ascii.compare a a = Eq.
Proof. unfold Ascii.compare. apply N.compare_refl. Qed.

Lemma ascii_compare_lt_trans (a b c : ascii) :
  Ascii.compare a b = Lt → Ascii.compare b c = Lt → Ascii.compare a c = Lt.
Proof.
  unfold Ascii.compare. rewrite !N.compare_lt_iff. lia.
Qed.

Lemma str_compare_lt_trans (a b c : string) :
  String.compare a b = Lt → String.compare b c = Lt → String.compare a c = Lt.
Proof.
  revert b c. induction a as [|x a IH]; intros [|y b] [|z c]; simpl; try done.
  destruct (Ascii.compare x y) eqn:Hxy; try done.
  - apply Ascii.compare_eq_iff in Hxy as ->.
    destruct (Ascii.compare y z); try done. apply IH.
  - destruct (Ascii.compare y z) eqn:Hyz; try done.
    + apply Ascii.compare_eq_iff in Hyz as <-. by rewrite Hxy.
    + by rewrite (ascii_compare_lt_trans _ _ _ Hxy Hyz).
Qed.

Lemma str_le_cases (a b : string) : str_le a b ↔ a = b ∨ String.compare a b = Lt.
Proof.
  unfold str_le, String.leb. split.
  - destruct (String.compare a b) eqn:H; try done.
    + left. by apply String.compare_eq_iff.
    + by right.
  - intros [->| ->]; [|done].
    assert (String.compare b b = Eq) as ->; [|done].
    induction b as [|x b IH]; simpl; [done|]. by rewrite ascii_compare_refl.
Qed.

#[global] Instance str_le_total : Total str_le.
Proof. intros a b. apply String.leb_total. Qed.

#[global] Instance str_le_antisymm : AntiSymm (=) str_le.
Proof. intros a b. apply String.leb_antisym. Qed.

#[global] Instance str_le_trans : Transitive str_le.
Proof.
  intros a b c. rewrite !str_le_cases.
  intros [->|Hab] [->|Hbc]; eauto using str_compare_lt_trans.
Qed.

Lemma sort_Sorted (l : list string) : Sorted str_le (sort l).
Proof. apply (Sorted_merge_sort str_le). Qed.

Lemma sort_Permutation (l : list string) : sort l ≡ₚ l.
Proof. apply merge_sort_Permutation. Qed.

(** The result of [sort()] is the one sorted arrangement of the elements,
    so it does not depend on the sorting algorithm of the engine. *)
Lemma sort_characterised (l r : list string) :
  Sorted str_le r → r ≡ₚ l → sort l = r.
Proof.
  intros Hs Hp. apply (Sorted_unique str_le); [apply sort_Sorted|done|].
  by rewrite sort_Permutation.
Qed.

Lemma sort_perm_eq (l1 l2 : list string) : l1 ≡ₚ l2 → sort l1 = sort l2.
Proof.
  intros Hp. apply sort_characterised; [apply sort_Sorted|].
  by rewrite sort_Permutation.
Qed.

Lemma sort_pair (a b : string) :
  sort [a; b] = if String.leb a b then [a; b] else [b; a].
Proof.
  destruct (String.leb a b) eqn:Hab.
  - apply sort_characterised; [|done]. repeat constructor. exact Hab.
  - apply sort_characterised; [|apply Permutation_swap].
    repeat constructor. destruct (String.leb_total a b) as [H|H]; [congruence|exact H].
Qed.

(** ** Conversation ids *)

Lemma resolveDirect_unfold (a b : User) :
  resolveDirect a b = join "_" (sort [uid b; uid a]).
Proof.
  unfold resolveDirect, chatIdOf, chatUsersOf. reflexivity.
Qed.

(** [resolveDirect] is the id [openChat] stores when a user entry is
    clicked, and both clients subscribe to the same message path. *)
Lemma openChat_direct_id (c : Client) (other : User) :
  let c' := openChat [self_entry other] None c in
  currentChatId c' = Some (resolveDirect (currentUser c) other) ∧
  isGroup c' = false ∧
  messages_path c' = "chats/" +:+ resolveDirect (currentUser c) other.
Proof. by split_and!. Qed.

Example sort_by_code_unit : sort ["b"; "a"; "B"; "ab"; ""] = [""; "B"; "a"; "ab"; "b"].
Proof. reflexivity. Qed.

Example trim_both_ends : trim "  a b  " = "a b".
Proof. reflexivity. Qed.

(** C2. The direct-conversation id is the two ids sorted by the total order
    [str_le] and joined with ["_"]; it is the same from either side, and the
    users "u1" and "u2" get "u1_u2" from both sides. *)
Theorem resolveDirect_symmetric :
  (∀ a b : User, resolveDirect a b = resolveDirect b a) ∧
  (∀ a b : User,
     resolveDirect a b =
       if String.leb (uid a) (uid b)
       then uid a +:+ "_" +:+ uid b
       else uid b +:+ "_" +:+ uid a) ∧
  (∀ n1 p1 n2 p2,
     resolveDirect (mkUser "u1" n1 p1) (mkUser "u2" n2 p2) = "u1_u2" ∧
     resolveDirect (mkUser "u2" n2 p2) (mkUser "u1" n1 p1) = "u1_u2").
Proof.
  split_and!.
  - intros a b. rewrite !resolveDirect_unfold. f_equal.
    apply sort_perm_eq, Permutation_swap.
  - intros a b. rewrite resolveDirect_unfold.
    rewrite (sort_perm_eq [uid b; uid a] [uid a; uid b]) by apply Permutation_swap.
    rewrite sort_pair. by destruct (String.leb (uid a) (uid b)).
  - intros. split; reflexivity.
Qed.

(** C3. The group id depends on the member ids (the invited members and the
    creator) only up to their order. *)
Theorem groupId_order_independent (sel1 sel2 : list ChatUser) (me1 me2 : User) :
  cu_uid <$> groupMembers sel1 me1 ≡ₚ cu_uid <$> groupMembers sel2 me2 →
  groupIdOf sel1 me1 = groupIdOf sel2 me2.
Proof.
  intros Hp. unfold groupIdOf. f_equal. by apply sort_perm_eq.
Qed.

Lemma groupId_order_independent_witness :
  groupIdOf [mkChatUser "u2" "B"; mkChatUser "u3" "C"] (mkUser "u1" "A" None) =
  groupIdOf [mkChatUser "u3" "C"; mkChatUser "u1" "A"] (mkUser "u2" "B" None).
Proof.
  apply groupId_order_independent. simpl.
  apply (Permutation_app_comm ["u2"] ["u3"; "u1"]).
Defined.

(** Member lists without repetition that have the same elements get the
    same id. *)
Lemma groupId_same_members (sel1 sel2 : list ChatUser) (me1 me2 : User) :
  NoDup (cu_uid <$> groupMembers sel1 me1) →
  NoDup (cu_uid <$> groupMembers sel2 me2) →
  (∀ x, x ∈ cu_uid <$> groupMembers sel1 me1 ↔ x ∈ cu_uid <$> groupMembers sel2 me2) →
  groupIdOf sel1 me1 = groupIdOf sel2 me2.
Proof.
  intros Hn1 Hn2 Hsame. unfold groupIdOf. f_equal.
  apply sort_perm_eq. by apply NoDup_Permutation.
Qed.

(** The id of the document that group creation writes is [groupIdOf]. *)
Lemma createGroup_id (nameInput : string) (selected : list ChatUser) (c : Client)
    (g : GroupDoc) :
  createGroupBtn_onclick nameInput selected c = Some (WSetGroup g) →
  g_id g = groupIdOf selected (currentUser c) ∧ g_name g = trim nameInput
  ∧ 1 ≤ length selected.
Proof.
  unfold createGroupBtn_onclick. destruct (decide (trim nameInput = "")); [done|].
  destruct (Nat.ltb_spec (length selected) 1); [done|]. by intros [= <-].
Qed.

Example group_of_three :
  groupIdOf [mkChatUser "u3" "C"; mkChatUser "u1" "A"] (mkUser "u2" "B" None) = "u1_u2_u3".
Proof. reflexivity. Qed.

(** ** The proxy's message preparation *)

Lemma slice_from_neg_length {A} (n : nat) (l : list A) :
  0 < n → length (slice_from (- Z.of_nat n) l) = n `min` length l.
Proof.
  intros Hn. unfold slice_from.
  destruct (Z.ltb_spec (- Z.of_nat n) 0) as [_|?]; [|lia].
  rewrite length_drop. lia.
Qed.

Section ProxyProps.
Variable DEFAULT_SYSTEM_INSTRUCTION : string.

#[local] Abbreviation prepare := (prepareMessages DEFAULT_SYSTEM_INSTRUCTION).
#[local] Abbreviation injected := (with_system DEFAULT_SYSTEM_INSTRUCTION).
#[local] Abbreviation instruction := (default_instruction DEFAULT_SYSTEM_INSTRUCTION).

Lemma trim_history_length (msgs : list JsEntry) :
  length (trim_history msgs) ≤ MAX_HISTORY.
Proof.
  unfold trim_history.
  destruct (Nat.ltb_spec MAX_HISTORY (length msgs)) as [Hlt|Hle]; [|done].
  assert (length (slice_from (- Z.of_nat MAX_HISTORY) msgs) ≤ MAX_HISTORY) as Hall.
  { rewrite slice_from_neg_length by (unfold MAX_HISTORY; lia).
    unfold MAX_HISTORY. lia. }
  destruct msgs as [|m0 msgs']; [done|].
  destruct (is_system m0); [|done].
  change (Nat.max 1 MAX_HISTORY - 1) with 19.
  cbn [length]. rewrite slice_from_neg_length by lia.
  unfold MAX_HISTORY. lia.
Qed.

Lemma trim_history_head (msgs : list JsEntry) (m0 : JsEntry) :
  head msgs = Some m0 → is_system m0 = true → head (trim_history msgs) = Some m0.
Proof.
  destruct msgs as [|m msgs']; [done|]. intros [= ->] Hsys.
  unfold trim_history. destruct (MAX_HISTORY <? _)%nat; [|done].
  by rewrite Hsys.
Qed.

(** C10. When no message has role 'system' the default instruction is put
    in front; the result has at most [MAX_HISTORY] = 20 messages; and when
    the history is trimmed, an instruction message at its head is the head
    of the result. *)
Theorem prepareMessages_spec (incomingMessages : option (list JsEntry)) :
  (existsb is_system (default [] incomingMessages) = false →
     injected incomingMessages = instruction :: default [] incomingMessages ∧
     head (prepare incomingMessages) = Some instruction) ∧
  length (prepare incomingMessages) ≤ 20 ∧
  (∀ m0,
     MAX_HISTORY < length (injected incomingMessages) →
     head (injected incomingMessages) = Some m0 →
     is_system m0 = true →
     head (prepare incomingMessages) = Some m0
     ∧ length (prepare incomingMessages) = 20).
Proof.
  split_and!.
  - intros Hno. assert (injected incomingMessages
                        = instruction :: default [] incomingMessages) as Hinj.
    { unfold with_system. by rewrite Hno. }
    split; [done|]. unfold prepareMessages. rewrite Hinj.
    by apply trim_history_head.
  - apply trim_history_length.
  - intros m0 Hlong Hhd Hsys. split.
    + by apply trim_history_head.
    + unfold prepareMessages, trim_history.
      destruct (Nat.ltb_spec MAX_HISTORY (length (injected incomingMessages)));
        [|lia].
      destruct (injected incomingMessages) as [|m msgs']; [done|].
      injection Hhd as ->. rewrite Hsys.
      change (Nat.max 1 MAX_HISTORY - 1) with 19.
      unfold MAX_HISTORY in *. cbn [length] in *.
      rewrite slice_from_neg_length by lia. cbn [length]. lia.
Qed.
End ProxyProps.

Lemma prepareMessages_spec_witness :
  head (prepareMessages "be helpful" (Some long_history))
    = Some (default_instruction "be helpful")
  ∧ length (prepareMessages "be helpful" (Some long_history)) = 20.
Proof.
  destruct (prepareMessages_spec "be helpful" (Some long_history)) as (H1 & _ & H3).
  apply (H3 (default_instruction "be helpful")).
  - vm_compute. lia.
  - reflexivity.
  - reflexivity.
Defined.

(** ** The store *)

Lemma children_with_children (s : Store) (p p' : string) (l : Children) :
  children (with_children p l s) p' = if decide (p' = p) then l else children s p'.
Proof.
  unfold children, with_children. simpl.
  destruct (decide (p' = p)) as [->|Hne].
  - by rewrite lookup_insert_eq.
  - by rewrite lookup_insert_ne.
Qed.

Lemma child_get_cons (k k' : string) (v : Message) (l : Children) :
  child_get k ((k', v) :: l) = if decide (k' = k) then Some v else child_get k l.
Proof.
  unfold child_get. simpl. destruct (decide (k' = k)) as [->|Hne].
  - by rewrite bool_decide_eq_true_2.
  - by rewrite bool_decide_eq_false_2.
Qed.

(** Case analysis on the key comparisons of a goal. *)
Ltac keys := repeat case_decide; simplify_eq; try done; try naive_solver.

Lemma child_get_put_ne (k k' : string) f (l : Children) :
  k' ≠ k → child_get k' (child_put k f l) = child_get k' l.
Proof.
  intros Hne. induction l as [|[k0 v] l IH]; simpl.
  - rewrite child_get_cons. keys.
  - destruct (decide (k = k0)) as [->|Hk].
    + rewrite !child_get_cons. keys.
    + destruct (String.ltb k k0).
      * rewrite (child_get_cons k' k). keys.
      * rewrite !child_get_cons. by rewrite IH.
Qed.

(** After a write under [k] the node under [k] is the written one. *)
Lemma child_get_put_eq (k : string) f (l : Children) :
  ∃ o, child_get k (child_put k f l) = Some (f o).
Proof.
  induction l as [|[k0 v] l [o IH]]; simpl.
  - exists None. rewrite child_get_cons. keys.
  - destruct (decide (k = k0)) as [->|Hk].
    + exists (Some v). rewrite child_get_cons. keys.
    + destruct (String.ltb k k0).
      * exists None. rewrite child_get_cons. keys.
      * exists o. rewrite child_get_cons. rewrite IH. keys.
Qed.

Lemma child_get_remove (k k' : string) (l : Children) :
  child_get k' (child_remove k l) = if decide (k' = k) then None else child_get k' l.
Proof.
  unfold child_remove. induction l as [|[k0 v] l IH]; simpl.
  - keys.
  - rewrite filter_cons. simpl. destruct (decide (k0 ≠ k)) as [Hne|Heq%dec_stable].
    + rewrite !child_get_cons. rewrite IH. keys.
    + subst k0. rewrite IH, child_get_cons. keys.
Qed.

Lemma child_get_Some_elem (k : string) (m : Message) (l : Children) :
  child_get k l = Some m → (k, m) ∈ l.
Proof.
  unfold child_get. destruct (find _ l) as [[k0 m0]|] eqn:Hf; [|done].
  intros [= <-]. apply find_some in Hf as [Hin Hk].
  apply bool_decide_eq_true in Hk. simpl in Hk. subst. by apply list_elem_of_In.
Qed.

Lemma child_get_None_key (k : string) (l : Children) :
  child_get k l = None → ∀ m, (k, m) ∉ l.
Proof.
  unfold child_get. destruct (find _ l) eqn:Hf; [done|]. intros _ m Hin.
  apply list_elem_of_In in Hin.
  pose proof (find_none _ _ Hf _ Hin) as H. simpl in H.
  by rewrite bool_decide_eq_true_2 in H.
Qed.


Lemma run_app (ws1 ws2 : list Write) (s : Store) :
  run (ws1 ++ ws2) s = run ws2 (run ws1 s).
Proof. unfold run. by rewrite foldl_app. Qed.


(** A status-only update changes no other property of any message. *)
Lemma merge_only_status (st : Status) (m : Message) :
  merge_fields (only_status st) m = set_status st m.
Proof. by destruct m as [[] [] [] [] [] [] []]. Qed.

(** ** The Seen transition *)

Lemma elem_of_concat {A} (x : A) (ls : list (list A)) :
  x ∈ concat ls ↔ ∃ l, x ∈ l ∧ l ∈ ls.
Proof.
  rewrite list_elem_of_In, in_concat. split.
  - intros (l & Hl & Hx). exists l. by rewrite !list_elem_of_In.
  - intros (l & Hx & Hl). exists l. by rewrite <- !list_elem_of_In.
Qed.

Lemma render_one_writes (me path : string) (k : string) (m : Message) (w : Write) :
  w ∈ (render_one me path (k, m)).2 ↔
    senderId m ≠ Some me ∧ status m ≠ Some Seen ∧ w = WUpdate path k (only_status Seen).
Proof.
  unfold render_one.
  destruct (bool_decide_reflect (senderId m = Some me)) as [Hm|Hm];
    destruct (bool_decide_reflect (status m = Some Seen)) as [Hs|Hs]; simpl.
  - rewrite elem_of_nil. tauto.
  - rewrite elem_of_nil. tauto.
  - rewrite elem_of_nil. tauto.
  - rewrite list_elem_of_singleton. tauto.
Qed.

Lemma onMessagesValue_writes (path : string) (snap : Children) (c : Client) (w : Write) :
  w ∈ (onMessagesValue path snap c).2 ↔
    ∃ k m, (k, m) ∈ snap ∧ senderId m ≠ Some (uid (currentUser c))
           ∧ status m ≠ Some Seen ∧ w = WUpdate path k (only_status Seen).
Proof.
  unfold onMessagesValue. simpl. rewrite elem_of_concat. split.
  - intros (l & Hw & Hl). apply list_elem_of_fmap in Hl as (r & -> & Hr).
    apply list_elem_of_fmap in Hr as ([k m] & -> & Hkm).
    apply render_one_writes in Hw as (Hs1 & Hs2 & ->). by exists k, m.
  - intros (k & m & Hkm & Hrest).
    exists (render_one (uid (currentUser c)) path (k, m)).2. split.
    + by apply render_one_writes.
    + apply list_elem_of_fmap. eexists. split; [done|].
      apply list_elem_of_fmap. by exists (k, m).
Qed.

(** C4. Rendering a snapshot issues, for a message, exactly the update
    [{ status: 'Seen' }] and only when the message is not the local user's
    and is not Seen already; nothing but the status is in the update, and a
    snapshot of the user's own messages issues nothing. *)
Theorem seen_update_gated (path : string) (snap : Children) (c : Client) :
  let me := uid (currentUser c) in
  let ws := (onMessagesValue path snap c).2 in
  (∀ w, w ∈ ws ↔
     ∃ k m, (k, m) ∈ snap ∧ senderId m ≠ Some me ∧ status m ≠ Some Seen
            ∧ w = WUpdate path k (only_status Seen)) ∧
  (∀ k fields, WUpdate path k fields ∈ ws →
     fields = mkMessage None None None None None (Some Seen) None) ∧
  (Forall (λ km, senderId km.2 = Some me) snap → ws = []).
Proof.
  intros me ws. split_and!.
  - intros w. apply onMessagesValue_writes.
  - intros k fields Hin.
    apply onMessagesValue_writes in Hin as (? & ? & _ & _ & _ & Heq).
    by injection Heq as _ ->.
  - intros Hall. destruct ws as [|w ws'] eqn:Hws; [done|].
    assert (w ∈ ws) as Hin by (rewrite Hws; left).
    apply onMessagesValue_writes in Hin as (k & m & Hkm & Hne & _).
    rewrite Forall_forall in Hall. by specialize (Hall _ Hkm).
Qed.

Lemma seen_update_gated_witness :
  (onMessagesValue "chats/u1_u2" (children store_sent "chats/u1_u2") alice_send.1.1).2 = [] ∧
  (onMessagesValue "chats/u1_u2" (children store_sent "chats/u1_u2") bob_open).2
    = [WUpdate "chats/u1_u2" "m1" (mkMessage None None None None None (Some Seen) None)].
Proof.
  destruct (seen_update_gated "chats/u1_u2" (children store_sent "chats/u1_u2")
              alice_send.1.1) as (_ & _ & Hown).
  split; [|reflexivity].
  apply Hown. vm_compute. repeat constructor.
Defined.

(** ** Status monotonicity *)





(** The callback of [loadMessages] issues Seen writes and the continuation
    of a send issues a Delivered write: the writes of the schedules. *)
Lemma client_writes_are_status_writes (path : string) (snap : Children) (c : Client)
    (r : Pushed) (o : Settled) :
  Forall is_status_write (onMessagesValue path snap c).2 ∧
  Forall is_status_write (push_then r o).
Proof.
  split.
  - apply Forall_forall. intros w Hw.
    apply onMessagesValue_writes in Hw as (k & m & _ & _ & _ & ->).
    exists path, k, Seen. by split; [|right].
  - destruct o; simpl; [|done]. apply Forall_singleton.
    exists (pushedPath r), (pushedKey r), Delivered. by split; [|left].
Qed.


Lemma bob_writes_eq : bob_writes = [WUpdate "chats/u1_u2" "m1" (only_status Seen)].
Proof. reflexivity. Qed.

Lemma alice_ack_writes_eq :
  alice_ack_writes = [WUpdate "chats/u1_u2" "m1" (only_status Delivered)].
Proof. reflexivity. Qed.



(** ** Switching the conversation *)

Lemma openChat_listeners (users : list ChatUser) (gid : option string) (c : Client) :
  let c' := openChat users gid c in
  listeners c' =
    on (OnTyping (typing_path c'))
       (off (typing_path c') (on (OnMessages (messages_path c'))
                                  (off (messages_path c') (listeners c)))).
Proof. reflexivity. Qed.

(** [openChat] removes the callbacks registered on the paths of the
    conversation it opens, and no others. *)
Lemma openChat_keeps_other_listeners (users : list ChatUser) (gid : option string)
    (c : Client) (l : Listener) :
  let c' := openChat users gid c in
  l ∈ listeners c →
  listener_path l ≠ messages_path c' →
  listener_path l ≠ typing_path c' →
  l ∈ listeners c'.
Proof.
  intros c' Hin Hm Ht. subst c'. rewrite openChat_listeners. unfold on, off.
  rewrite elem_of_app. left. apply list_elem_of_filter. split; [done|].
  rewrite elem_of_app. left. by apply list_elem_of_filter.
Qed.

(** C5 fails on the code. [openChat] assigns [currentChatId] before
    [loadMessages] computes the path it calls [off()] on, so the callbacks of
    the conversation that was open stay registered: after A moves from the
    chat with B to the chat with C, a message of B is rendered into the view
    (and marked Seen) and B's typing flag shows the typing indicator. *)
Theorem previous_subscription_survives_switch :
  currentChatId alice_typed = Some "u1_u2" ∧
  currentChatId alice_switched = Some "u1_u3" ∧
  listeners alice_switched =
    [OnMessages "chats/u1_u2"; OnTyping "typing/u1_u2";
     OnMessages "chats/u1_u3"; OnTyping "typing/u1_u3"] ∧
  messages_path alice_stale_messages.1 = "chats/u1_u3" ∧
  (λ d, (dataKey d, dataPath d, text (shown d))) <$> messagesEl alice_stale_messages.1
    = [("m2", "chats/u1_u2", Some "yo")] ∧
  alice_stale_messages.2 = [WUpdate "chats/u1_u2" "m2" (only_status Seen)] ∧
  typingVisible alice_switched = false ∧
  typingVisible alice_stale_typing.1 = true.
Proof. repeat split; reflexivity. Qed.

(** ** What a value event does to the view *)

Lemma onMessagesValue_keys (path : string) (snap : Children) (c : Client) :
  dataKey <$> messagesEl (onMessagesValue path snap c).1 = fst <$> snap.
Proof.
  unfold onMessagesValue. simpl. rewrite <- !list_fmap_compose.
  apply list_fmap_ext. intros _ [k m] _. simpl.
  by destruct (negb _ && negb _).
Qed.

Lemma fire_frame (l : Listener) (s : Store) (c : Client) :
  listeners (fire l s c).1 = listeners c ∧ currentUser (fire l s c).1 = currentUser c.
Proof. by destruct l. Qed.

(** After a value event on [p], a client that has the message callback
    registered on [p] shows exactly the keys of the snapshot of [p]. *)
Lemma notify_keys (p : string) (s : Store) (c : Client) :
  OnMessages p ∈ listeners c →
  dataKey <$> messagesEl (notify p s c).1 = fst <$> children s p.
Proof.
  unfold notify. generalize (c, @nil Write) as acc. generalize (listeners c) as ls.
  induction ls as [|l ls IH] using rev_ind; intros acc Hin.
  - by apply elem_of_nil in Hin.
  - rewrite foldl_app. simpl.
    destruct (decide (listener_path l = p)) as [Hp|Hp].
    + destruct l as [q|q]; simpl in Hp; subst q; simpl.
      * apply (onMessagesValue_keys p (children s p)).
      * apply IH. apply elem_of_app in Hin as [Hin|Hin]; [done|].
        by apply list_elem_of_singleton in Hin.
    + apply IH. apply elem_of_app in Hin as [Hin|Hin]; [done|].
      apply list_elem_of_singleton in Hin. subst l. by simpl in Hp.
Qed.

Lemma child_remove_keys (k : string) (l : Children) : k ∉ fst <$> child_remove k l.
Proof.
  intros Hin. apply list_elem_of_fmap in Hin as ([k' m] & -> & Hin).
  apply list_elem_of_filter in Hin as [Hne _]. by simpl in Hne.
Qed.

Lemma shows_keys (k : string) (v : list MsgDiv) : shows k v ↔ k ∈ dataKey <$> v.
Proof.
  unfold shows. rewrite list_elem_of_fmap. split.
  - intros (d & Hd & <-). by exists d.
  - intros (d & -> & Hd). by exists d.
Qed.

(** ** Deleting for everyone *)

(** C6. "Delete for everyone" issues the store [remove] of the message the
    menu was opened on, whoever the caller and whoever the sender; the
    handler itself changes no view; once the removal is committed the store
    no longer has the message, and the value event on the path leaves the
    message out of the view of every client subscribed to the path, the
    caller's included. *)
Theorem delete_for_everyone (y : Sys) (u : string) (c : Client) :
  clients y !! u = Some c →
  let p := js_str (menuPath (deleteMenu c)) in
  let k := js_str (menuKey (deleteMenu c)) in
  let y1 := (click_delForAll u y).1 in
  let y2 := sys_commit (WRemove p k) y1 in
  (click_delForAll u y).2 = [WRemove p k] ∧
  store y1 = store y ∧
  (∀ v, view_of v y1 = view_of v y) ∧
  (∀ v cv, clients y !! v = Some cv →
     ∃ cv', clients y1 !! v = Some cv' ∧ listeners cv' = listeners cv) ∧
  message_at (store y2) p k = None ∧
  (∀ v cv view,
     clients y2 !! v = Some cv →
     OnMessages p ∈ listeners cv →
     view_of v (deliver v p y2).1 = Some view →
     ¬ shows k view).
Proof.
  intros Hc p k y1 y2.
  assert (click_delForAll u y
          = (mkSys (store y) (<[u := hide_menu c]> (clients y)), [WRemove p k])) as Hclick.
  { unfold click_delForAll. by rewrite Hc. }
  subst y2 y1. rewrite Hclick. simpl. split_and!; try done.
  - intros v. unfold view_of. simpl. destruct (decide (v = u)) as [->|Hne].
    + by rewrite lookup_insert_eq, Hc.
    + by rewrite lookup_insert_ne.
  - intros v cv Hv. destruct (decide (v = u)) as [->|Hne].
    + rewrite lookup_insert_eq. exists (hide_menu c). split; [done|].
      by assert (cv = c) as -> by congruence.
    + rewrite lookup_insert_ne by done. by exists cv.
  - unfold message_at. rewrite children_with_children, decide_True by done.
    rewrite child_get_remove. by rewrite decide_True.
  - intros v cv view Hv Hsub. unfold deliver, view_of. simpl. rewrite Hv.
    destruct (notify p _ cv) as [cv' ws] eqn:Hn. simpl.
    rewrite lookup_insert_eq. simpl. intros [= <-].
    rewrite shows_keys. change cv' with (cv', ws).1. rewrite <- Hn.
    rewrite notify_keys by done. simpl.
    rewrite children_with_children, decide_True by done.
    apply child_remove_keys.
Qed.

Lemma delete_for_everyone_witness :
  (click_delForAll "u2" two_clients).2 = [WRemove "chats/u1_u2" "m1"] ∧
  ∀ view,
    view_of "u1"
      (deliver "u1" "chats/u1_u2"
         (sys_commit (WRemove "chats/u1_u2" "m1") (click_delForAll "u2" two_clients).1)).1
      = Some view →
    ¬ shows "m1" view.
Proof.
  destruct (delete_for_everyone two_clients "u2" bob_menu eq_refl)
    as (H1 & _ & _ & _ & _ & H6).
  split; [exact H1|]. intros view.
  apply (H6 "u1" alice_rendered).
  - reflexivity.
  - vm_compute. left.
Defined.

(** ** Deleting for me *)

Lemma delete_at_found {A B} (f : A → B) (l : list A) (i : nat) (d : A) :
  l !! i = Some d →
  (∀ x, x ∈ l → f x ≠ f d → x ∈ delete i l) ∧
  (NoDup (f <$> l) → ∀ x, x ∈ delete i l → f x ≠ f d).
Proof.
  intros Hi. rewrite delete_take_drop.
  pose proof (take_drop_middle l i d Hi) as Hl. split.
  - intros x Hx Hne. rewrite <- Hl in Hx.
    rewrite elem_of_app in *. rewrite elem_of_cons in Hx.
    destruct Hx as [?|[->|?]]; [by left|done|by right].
  - intros Hnd x Hx Heq. rewrite <- Hl in Hnd.
    rewrite fmap_app, fmap_cons in Hnd.
    apply NoDup_app in Hnd as (_ & Hdisj & Hnd). apply NoDup_cons in Hnd as [Hnotin _].
    apply elem_of_app in Hx as [Hx|Hx].
    + apply (Hdisj (f x)); [by apply list_elem_of_fmap_2|]. rewrite Heq. left.
    + apply Hnotin. rewrite <- Heq. by apply list_elem_of_fmap_2.
Qed.

(** What line 314 does on a rendered message: no store operation is issued,
    the store and every other client are as they were, and the first
    element of the caller's view that carries the message's key is removed,
    that one alone. Every message with another key stays; the message
    itself is gone from the view when the view held its key once. *)
Lemma delForMe_removes_first_match (y : Sys) (u : string) (c : Client) (el : MsgDiv) :
  clients y !! u = Some c →
  el ∈ messagesEl c →
  menuKey (deleteMenu c) = Some (dataKey el) →
  let y1 := (click_delForMe u y).1 in
  (click_delForMe u y).2 = [] ∧
  store y1 = store y ∧
  (∀ p k, message_at (store y1) p k = message_at (store y) p k) ∧
  (∀ v, v ≠ u → clients y1 !! v = clients y !! v) ∧
  ∃ i d,
    messagesEl c !! i = Some d ∧ dataKey d = dataKey el ∧
    (∀ j d', messagesEl c !! j = Some d' → j < i → dataKey d' ≠ dataKey el) ∧
    view_of u y1 = Some (delete i (messagesEl c)) ∧
    (∀ k', k' ≠ dataKey el → shows k' (messagesEl c) ↔ shows k' (delete i (messagesEl c))) ∧
    (NoDup (dataKey <$> messagesEl c) →
       d = el ∧ ¬ shows (dataKey el) (delete i (messagesEl c))).
Proof.
  intros Hc Hel Hkey y1.
  destruct (list_find_elem_of (λ d, dataKey d = dataKey el) (messagesEl c) el Hel eq_refl)
    as [[i d] Hfind].
  pose proof Hfind as Hfound. apply list_find_Some in Hfound as (Hi & Hd & Hfirst).
  assert (click_delForMe u y
          = (mkSys (store y)
               (<[u := hide_menu (set_view (delete i (messagesEl c)) c)]> (clients y)), []))
    as Hclick.
  { unfold click_delForMe. rewrite Hc. simpl.
    unfold delForMe_onclick, querySelector_dataKey. rewrite Hkey. simpl.
    by rewrite Hfind. }
  subst y1. rewrite Hclick. simpl. split_and!; try done.
  - intros v Hne. by rewrite lookup_insert_ne.
  - exists i, d. destruct (delete_at_found dataKey _ _ _ Hi) as [Hkeep Hgone].
    split_and!; try done.
    + unfold view_of. simpl. by rewrite lookup_insert_eq.
    + intros k' Hk'. split.
      * intros (x & Hx & <-). exists x. split; [|done]. apply Hkeep; [done|congruence].
      * intros (x & Hx & <-). exists x. split; [|done].
        by apply list_elem_of_delete_inv in Hx.
    + intros Hnd. split.
      * apply list_elem_of_lookup in Hel as [j Hj].
        assert (i = j) as ->; [|congruence].
        apply (NoDup_lookup (dataKey <$> messagesEl c) i j (dataKey el)); [done| |].
        -- by rewrite list_lookup_fmap, Hi, <- Hd.
        -- by rewrite list_lookup_fmap, Hj.
      * intros (x & Hx & Hxk). apply (Hgone Hnd x Hx). congruence.
Qed.

Lemma delForMe_removes_first_match_witness :
  (click_delForMe "u1" both_showing).2 = [] ∧
  view_of "u1" (click_delForMe "u1" both_showing).1 = Some [] ∧
  view_of "u2" (click_delForMe "u1" both_showing).1 = view_of "u2" both_showing ∧
  is_Some (message_at (store (click_delForMe "u1" both_showing).1) "chats/u1_u2" "m1").
Proof.
  destruct (delForMe_removes_first_match both_showing "u1" alice_menu
              (mkMsgDiv "m1" "chats/u1_u2" true
                 (mkMessage (Some "u1") (Some "A") (Some "") (Some "hi") (Some 100%Z)
                            (Some Sent) None)))
    as (H1 & _ & H3 & H4 & i & d & _ & _ & _ & H5 & _).
  - reflexivity.
  - vm_compute. left.
  - reflexivity.
  - split_and!.
    + exact H1.
    + reflexivity.
    + unfold view_of. by rewrite H4.
    + rewrite H3. vm_compute. eauto.
Defined.

(** C7 fails on the page. B's page is told of A's message "m1": the
    callback issues the Seen update, the update runs the callback again,
    and both runs append the message, so that the view holds two elements
    with the key "m1". B opens the menu on the message and chooses "Delete
    for me": no store operation is issued, and the store and A's view are
    as they were, but line 314 removes the first of the two elements only,
    and the message is still shown in B's view. *)
Theorem delete_for_me_leaves_copy :
  dataKey <$> bob_page.1.1 = ["m1"; "m1"] ∧
  bob_page.2 = [WUpdate "chats/u1_u2" "m1" (only_status Seen)] ∧
  menuKey (deleteMenu bob_page_menu) = Some "m1" ∧
  (click_delForMe "u2" bob_page_sys).2 = [] ∧
  store (click_delForMe "u2" bob_page_sys).1 = store bob_page_sys ∧
  view_of "u1" (click_delForMe "u2" bob_page_sys).1 = view_of "u1" bob_page_sys ∧
  ∃ v, view_of "u2" (click_delForMe "u2" bob_page_sys).1 = Some v ∧
       dataKey <$> v = ["m1"] ∧
       shows "m1" v.
Proof.
  split_and!; try reflexivity.
  eexists. split; [reflexivity|]. split; [reflexivity|].
  eexists. split; [left|reflexivity].
Qed.

(** ** Replies *)

Lemma trim_nonblank_send (now : Z) (key : string) (c : Client) :
  trim (messageInput c) ≠ "" →
  pushable (pendingReply c) = true →
  sendBtn_onclick now key c =
    (cancelReply (set_input "" c),
     [WSet (messages_path c) key (new_message now (trim (messageInput c)) c);
      WSetTyping (typing_path c) (uid (currentUser c)) false],
     Some (mkPushed (messages_path c) key)).
Proof. intros Hne Hp. unfold sendBtn_onclick. by rewrite decide_False, Hp. Qed.

Lemma send_push_raises (now : Z) (key : string) (c : Client) :
  trim (messageInput c) ≠ "" →
  pushable (pendingReply c) = false →
  sendBtn_onclick now key c = (c, [], None) ∧ send_raises c = true.
Proof.
  intros Hne Hp. unfold sendBtn_onclick, send_raises.
  by rewrite decide_False, Hp, bool_decide_eq_true_2.
Qed.

Lemma message_at_set (s : Store) (p k : string) (m : Message) :
  message_at (commit (WSet p k m) s) p k = Some m.
Proof.
  unfold message_at. simpl. rewrite children_with_children, decide_True by done.
  by destruct (child_get_put_eq k (λ _, m) (children s p)) as [o ->].
Qed.

Lemma message_at_remove_other (s : Store) (p k k' : string) :
  k' ≠ k → message_at (commit (WRemove p k) s) p k' = message_at s p k'.
Proof.
  intros Hne. unfold message_at. simpl.
  rewrite children_with_children, decide_True by done.
  rewrite child_get_remove. by rewrite decide_False.
Qed.

Lemma handleReplyClick_frame (m : Message) (k : string) (c : Client) :
  pendingReply (handleReplyClick m k c) = Some (mkReplyRef k (text m) (senderName m)) ∧
  messages_path (handleReplyClick m k c) = messages_path c.
Proof. unfold handleReplyClick. by destruct (text m). Qed.

Lemma handleReplyClick_pushable (m : Message) (k : string) (c : Client) :
  pushable (pendingReply (handleReplyClick m k c))
  = bool_decide (is_Some (text m)) && bool_decide (is_Some (senderName m)).
Proof. by rewrite (proj1 (handleReplyClick_frame m k c)). Qed.

(** C8, as the code has it. For a target [m] that has a text [t] and a
    sender name [n], the message sent after [handleReplyClick(m, k)]
    carries, inline, the reference [{ key: k, text: t, senderName: n }]
    with the whole body of the target; only the preview above the input is
    cut to 50 characters. Removing the target from the store afterwards
    leaves the reply and its reference as they are. *)
Theorem reply_ref_stored_inline (m : Message) (k : string) (c : Client)
    (now : Z) (key input t n : string) :
  text m = Some t →
  senderName m = Some n →
  trim input ≠ "" →
  let c1 := set_input input (handleReplyClick m k c) in
  let ref := mkReplyRef k (Some t) (Some n) in
  ∃ c2 msg w r,
    sendBtn_onclick now key c1 = (c2, [WSet (messages_path c) key msg; w], Some r) ∧
    replyTo msg = Some ref ∧
    replyText c1 = n +:+ ": " +:+ String.substring 0 50 t ∧
    (∀ s, message_at (commit (WSet (messages_path c) key msg) s) (messages_path c) key
          = Some msg) ∧
    (∀ s, key ≠ k →
       message_at s (messages_path c) key = Some msg →
       message_at (commit (WRemove (messages_path c) k) s) (messages_path c) key
         = Some msg).
Proof.
  intros Ht Hn Hne c1 ref.
  destruct (handleReplyClick_frame m k c) as [Hreply Hpath].
  assert (messages_path c1 = messages_path c) as Hp1 by exact Hpath.
  assert (pendingReply c1 = Some ref) as Hr1.
  { subst ref. rewrite <- Ht, <- Hn. exact Hreply. }
  assert (pushable (pendingReply c1) = true) as Hpush by (by rewrite Hr1).
  eexists _, _, _, _. split_and!.
  - rewrite trim_nonblank_send by done. rewrite Hp1. reflexivity.
  - exact Hr1.
  - subst c1. unfold handleReplyClick. by rewrite Ht, Hn.
  - intros s. apply message_at_set.
  - intros s Hk Hs. by rewrite message_at_remove_other.
Qed.

Lemma reply_ref_stored_inline_witness :
  (alice_reply.1.2 !! 0 ≫= λ w, match w with WSet _ _ msg => replyTo msg | _ => None end)
    = Some (mkReplyRef "m5" (Some "lunch?") (Some "B")) ∧
  (message_at (commit (WRemove "chats/u1_u2" "m5") store_with_reply) "chats/u1_u2" "m6"
     ≫= replyTo) = Some (mkReplyRef "m5" (Some "lunch?") (Some "B")).
Proof.
  destruct (reply_ref_stored_inline lunch "m5" alice_send.1.1 120 "m6" "sure" "lunch?" "B")
    as (c2 & msg & w & r & Hsend & Hreply & _ & _ & Hkeep).
  - reflexivity.
  - reflexivity.
  - vm_compute. discriminate.
  - change (sendBtn_onclick 120 "m6" _) with alice_reply in Hsend.
    change (messages_path alice_send.1.1) with "chats/u1_u2" in *.
    assert (alice_reply.1.2 = [WSet "chats/u1_u2" "m6" msg; w]) as Hws.
    { by rewrite Hsend. }
    split.
    + rewrite Hws. exact Hreply.
    + rewrite (Hkeep store_with_reply); [exact Hreply|discriminate|].
      unfold store_with_reply. rewrite Hws.
      vm_compute in Hws. injection Hws as <- <-. reflexivity.
Defined.

Lemma substring_length (n : nat) (s : string) :
  String.length (String.substring 0 n s) = n `min` String.length s.
Proof.
  revert s. induction n as [|n IH]; intros [|a s]; simpl; try done.
  by rewrite IH.
Qed.

(** C8, as stated, fails: the snippet stored with a reply to a message of
    sixty characters is the sixty characters, not their first fifty (nor
    any shorter prefix); the fifty-character cut is in the preview only. *)
Lemma reply_snippet_not_truncated :
  String.length sixty = 60 ∧
  (long_reply.1.2 !! 0 ≫= λ w, match w with WSet _ _ msg => replyTo msg | _ => None end)
    = Some (mkReplyRef "m5" (Some sixty) (Some "B")) ∧
  (∀ n, n < 60 → Some sixty ≠ Some (String.substring 0 n sixty)) ∧
  replyText (handleReplyClick long_message "m5" alice_send.1.1)
    = "B: " +:+ String.substring 0 50 sixty.
Proof.
  split_and!; try reflexivity.
  intros n Hn Heq. pose proof (substring_length n sixty) as Hl.
  assert (sixty = String.substring 0 n sixty) as Hs by congruence.
  rewrite <- Hs in Hl. change (String.length sixty) with 60 in Hl. lia.
Qed.

(** ** Sending when the append fails *)

(** C9, as the code has it. A send with a non-blank input whose message
    [push] accepts (the pending reply, if any, has a text and a sender
    name) issues one append (and clears the typing flag), and the handler
    has emptied the input and dropped the pending reply before the append
    settles. When the append is rejected nothing further is issued: no
    Delivered update, no second append, and no continuation is attached for
    the rejection; the store does not hold the message then, and the value
    event on the path leaves no element for it in the view. When [push]
    itself raises, nothing is issued and the input and the pending reply
    are kept. *)
Theorem send_clears_input_before_append_settles (now : Z) (key : string) (c : Client) :
  trim (messageInput c) ≠ "" →
  (pushable (pendingReply c) = true →
   ∃ c' msg r,
     sendBtn_onclick now key c =
       (c', [WSet (messages_path c) key msg;
             WSetTyping (typing_path c) (uid (currentUser c)) false], Some r) ∧
     text msg = Some (trim (messageInput c)) ∧
     status msg = Some Sent ∧
     messageInput c' = "" ∧
     pendingReply c' = None ∧
     push_then r Rejected = [] ∧
     push_then r Fulfilled = [WUpdate (messages_path c) key (only_status Delivered)] ∧
     (∀ s, OnMessages (messages_path c) ∈ listeners c →
           message_at s (messages_path c) key = None →
           ¬ shows key (messagesEl (notify (messages_path c) s c').1))) ∧
  (pushable (pendingReply c) = false →
   sendBtn_onclick now key c = (c, [], None) ∧ send_raises c = true).
Proof.
  intros Hne. split.
  - intros Hp. eexists _, _, _. split; [by apply trim_nonblank_send|].
    split_and!; try done.
    intros s Hsub Hnone. rewrite shows_keys, notify_keys by exact Hsub.
    intros (km & Hk & Hin)%list_elem_of_fmap. destruct km as [k0 m0]. simpl in Hk.
    subst k0. by apply (child_get_None_key key (children s (messages_path c)) Hnone m0).
  - intros Hp. by apply send_push_raises.
Qed.

Lemma send_clears_input_before_append_settles_witness :
  messageInput alice_send.1.1 = "" ∧ push_then alice_pushed Rejected = [] ∧
  ¬ shows "m1" (messagesEl (notify "chats/u1_u2" empty_store alice_send.1.1).1).
Proof.
  destruct (send_clears_input_before_append_settles 100 "m1" alice_typed) as [Hsent _].
  - vm_compute. discriminate.
  - destruct Hsent as (c' & msg & r & Hsend & _ & _ & Hinput & _ & Hrej & _ & Hview);
      [reflexivity|].
    change (sendBtn_onclick 100 "m1" alice_typed) with alice_send in Hsend.
    unfold alice_pushed. rewrite Hsend. simpl. split_and!; [done..|].
    apply Hview; [|reflexivity]. vm_compute. left.
Defined.

(** C9, as stated, fails: A types "hi" and sends; the input is empty when
    the handler returns, so a rejected append does not find it intact, and
    the rejection reaches no continuation. *)
Lemma failed_send_loses_input :
  messageInput alice_typed = "hi" ∧
  messageInput alice_send.1.1 = "" ∧
  messageInput alice_send.1.1 ≠ messageInput alice_typed ∧
  alice_send.2 = Some alice_pushed ∧
  push_then alice_pushed Rejected = [].
Proof. by split_and!. Qed.

(** * Further properties of the client and the proxy *)

(** ** Stores keep their children in key order *)

Lemma str_lt_compare (a b : string) : str_lt a b ↔ String.compare a b = Lt.
Proof. unfold str_lt, String.ltb. by destruct (String.compare a b). Qed.

Lemma str_compare_refl (a : string) : String.compare a a = Eq.
Proof. induction a as [|x a IH]; simpl; [done|]. by rewrite ascii_compare_refl. Qed.

#[global] Instance str_lt_trans : Transitive str_lt.
Proof. intros a b c. rewrite !str_lt_compare. apply str_compare_lt_trans. Qed.

#[global] Instance str_lt_irrefl : Irreflexive str_lt.
Proof. intros a. unfold complement. rewrite str_lt_compare, str_compare_refl. done. Qed.

Lemma str_lt_asym (a b : string) : str_lt a b → String.ltb b a = false.
Proof.
  intros Hab. destruct (String.ltb b a) eqn:Hba; [|done].
  destruct (str_lt_irrefl a). by transitivity b.
Qed.

Lemma str_lt_trichotomy (a b : string) : a ≠ b → String.ltb a b = false → str_lt b a.
Proof.
  intros Hne Hab. apply str_lt_compare. rewrite String.compare_antisym.
  unfold String.ltb in Hab. destruct (String.compare a b) eqn:Hc; try done.
  by apply String.compare_eq_iff in Hc.
Qed.

Lemma child_put_keys_bound (k : string) f (l : Children) (b : string) :
  str_lt b k → Forall (str_lt b) (l.*1) → Forall (str_lt b) ((child_put k f l).*1).
Proof.
  intros Hb. induction l as [|[k0 v] l IH]; simpl; intros Hl.
  - by repeat constructor.
  - apply Forall_cons in Hl as [H0 Hl].
    destruct (decide (k = k0)) as [->|Hne]; [by constructor|].
    destruct (String.ltb k k0); simpl; repeat constructor; auto.
Qed.

Lemma child_put_sorted (k : string) f (l : Children) :
  keys_sorted l → keys_sorted (child_put k f l).
Proof.
  unfold keys_sorted. induction l as [|[k0 v] l IH]; simpl; intros Hs.
  - repeat constructor.
  - apply StronglySorted_inv in Hs as [Hs H0].
    destruct (decide (k = k0)) as [->|Hne]; [by constructor|].
    destruct (String.ltb k k0) eqn:Hlt; simpl.
    + constructor; [by constructor|]. constructor; [done|].
      eapply Forall_impl; [exact H0|]. intros x Hx. by transitivity k0.
    + constructor; [by apply IH|].
      apply child_put_keys_bound; [|done]. apply str_lt_trichotomy; [done|exact Hlt].
Qed.

Lemma child_remove_sorted (k : string) (l : Children) :
  keys_sorted l → keys_sorted (child_remove k l).
Proof.
  unfold keys_sorted, child_remove. induction l as [|[k0 v] l IH]; simpl; intros Hs.
  - constructor.
  - apply StronglySorted_inv in Hs as [Hs H0]. rewrite filter_cons. simpl.
    destruct (decide (k0 ≠ k)); [|by apply IH]. simpl. constructor; [by apply IH|].
    rewrite Forall_forall in *. intros x Hx. apply H0.
    apply list_elem_of_fmap in Hx as (kv & -> & Hkv).
    apply list_elem_of_filter in Hkv as [_ Hkv]. by apply list_elem_of_fmap_2.
Qed.

Lemma empty_store_wf : store_wf empty_store.
Proof. intros p. constructor. Qed.

Lemma with_children_wf (p : string) (l : Children) (s : Store) :
  store_wf s → keys_sorted l → store_wf (with_children p l s).
Proof.
  intros Hs Hl q. rewrite children_with_children. by destruct (decide (q = p)).
Qed.

Lemma commit_wf (w : Write) (s : Store) : store_wf s → store_wf (commit w s).
Proof.
  intros Hs. destruct w as [p k m|p k f|p k|p u b|g]; simpl.
  - apply with_children_wf; [done|]. by apply child_put_sorted.
  - apply with_children_wf; [done|]. by apply child_put_sorted.
  - apply with_children_wf; [done|]. by apply child_remove_sorted.
  - exact Hs.
  - intros q. unfold children. simpl.
    destruct (decide (q = group_chats_path (g_id g))) as [->|Hne].
    + rewrite lookup_delete_eq. constructor.
    + rewrite lookup_delete_ne by done. apply Hs.
Qed.

Lemma run_wf (ws : list Write) (s : Store) : store_wf s → store_wf (run ws s).
Proof.
  revert s. induction ws as [|w ws IH]; intros s Hs; [done|].
  apply IH. by apply commit_wf.
Qed.

Lemma keys_sorted_NoDup (l : Children) : keys_sorted l → NoDup (l.*1).
Proof.
  unfold keys_sorted. induction 1 as [|k ks Hs IH Hk]; constructor; [|done].
  intros Hin. rewrite Forall_forall in Hk. by apply (str_lt_irrefl k), Hk.
Qed.

(** ** Rendering converges *)

Lemma gate_unseen (me : string) (km : string * Message) :
  negb (bool_decide (senderId km.2 = Some me)) && negb (bool_decide (status km.2 = Some Seen))
  = bool_decide (unseen_for me km).
Proof.
  unfold unseen_for.
  destruct (bool_decide_reflect (senderId km.2 = Some me)),
           (bool_decide_reflect (status km.2 = Some Seen)); simpl; symmetry.
  - apply bool_decide_eq_false_2. tauto.
  - apply bool_decide_eq_false_2. tauto.
  - apply bool_decide_eq_false_2. tauto.
  - by apply bool_decide_eq_true_2.
Qed.

Lemma onMessagesValue_writes_list (path : string) (snap : Children) (c : Client) :
  (onMessagesValue path snap c).2
  = (λ k, WUpdate path k (only_status Seen))
      <$> (filter (unseen_for (uid (currentUser c))) snap).*1.
Proof.
  unfold onMessagesValue. simpl. induction snap as [|[k m] snap IH]; [done|].
  rewrite !fmap_cons, filter_cons. simpl. rewrite IH. unfold render_one.
  rewrite (gate_unseen _ (k, m)).
  destruct (decide (unseen_for (uid (currentUser c)) (k, m))) as [Hu|Hu].
  - by rewrite (bool_decide_eq_true_2 _ Hu).
  - by rewrite (bool_decide_eq_false_2 _ Hu).
Qed.

Lemma seen_update_present (k : string) (l : Children) :
  keys_sorted l → k ∈ l.*1 →
  child_put k (λ o, merge_fields (only_status Seen) (default no_fields o)) l
  = (λ km : string * Message,
       if decide (km.1 = k) then (km.1, set_status Seen km.2) else km) <$> l.
Proof.
  unfold keys_sorted. induction l as [|[k0 v] l IH]; simpl; intros Hs Hin.
  - by apply elem_of_nil in Hin.
  - apply StronglySorted_inv in Hs as [Hs H0].
    destruct (decide (k = k0)) as [->|Hne].
    + rewrite decide_True by done. simpl. rewrite merge_only_status. f_equal.
      rewrite <- (list_fmap_id l) at 1. apply list_fmap_ext. intros i [k1 v1] Hi.
      simpl. rewrite decide_False; [done|]. intros ->.
      rewrite Forall_forall in H0. apply (str_lt_irrefl k0), H0.
      apply list_elem_of_fmap. exists (k0, v1). split; [done|].
      by apply list_elem_of_lookup_2 in Hi.
    + apply elem_of_cons in Hin as [?|Hin]; [done|].
      rewrite Forall_forall in H0. rewrite (str_lt_asym k0 k) by by apply H0.
      rewrite decide_False by done. f_equal. by apply IH.
Qed.

Lemma set_status_idemp (st : Status) (m : Message) :
  set_status st (set_status st m) = set_status st m.
Proof. done. Qed.

Lemma run_seen_updates (ks : list string) (s : Store) (p : string) :
  keys_sorted (children s p) →
  ks ⊆ (children s p).*1 →
  children (run ((λ k, WUpdate p k (only_status Seen)) <$> ks) s) p
  = (λ km : string * Message,
       (km.1, if bool_decide (km.1 ∈ ks) then set_status Seen km.2 else km.2))
      <$> children s p.
Proof.
  revert s. induction ks as [|k ks IH]; intros s Hs Hsub.
  - simpl. rewrite <- (list_fmap_id (children s p)) at 1.
    apply list_fmap_ext. by intros i [k v] _.
  - rewrite fmap_cons. change (run (?w :: ?ws) s) with (run ws (commit w s)).
    assert (children (commit (WUpdate p k (only_status Seen)) s) p
            = (λ km : string * Message,
                 if decide (km.1 = k) then (km.1, set_status Seen km.2) else km)
                <$> children s p) as Hstep.
    { simpl. rewrite children_with_children, decide_True by done.
      apply seen_update_present; [done|]. apply Hsub. left. }
    rewrite IH.
    + rewrite Hstep, <- list_fmap_compose. apply list_fmap_ext.
      intros i [k1 v1] _. simpl.
      destruct (decide (k1 = k)) as [->|Hne]; simpl.
      * rewrite (bool_decide_eq_true_2 (k ∈ k :: ks)) by left.
        by destruct (bool_decide (k ∈ ks)).
      * destruct (bool_decide_reflect (k1 ∈ ks)) as [Hin|Hin].
        -- rewrite bool_decide_eq_true_2; [done|]. by right.
        -- rewrite bool_decide_eq_false_2; [done|].
           rewrite elem_of_cons. tauto.
    + rewrite Hstep. unfold keys_sorted in *. rewrite <- list_fmap_compose.
      erewrite list_fmap_ext; [exact Hs|]. intros i [k1 v1] _. simpl.
      by destruct (decide (k1 = k)).
    + rewrite Hstep, <- list_fmap_compose.
      erewrite (list_fmap_ext _ fst); [intros x Hx; apply Hsub; by right|].
      intros i [k1 v1] _. simpl. by destruct (decide (k1 = k)).
Qed.

Lemma seen_by_quiet (me path : string) (l : Children) (c : Client) :
  uid (currentUser c) = me → (onMessagesValue path (seen_by me l) c).2 = [].
Proof.
  intros <-. rewrite onMessagesValue_writes_list.
  assert (filter (unseen_for (uid (currentUser c))) (seen_by (uid (currentUser c)) l) = [])
    as ->; [|done].
  induction l as [|[k m] l IH]; [done|].
  unfold seen_by in *. rewrite fmap_cons, filter_cons, IH. simpl.
  rewrite decide_False; [done|]. unfold unseen_for. simpl.
  destruct (bool_decide_reflect (senderId m = Some (uid (currentUser c)))) as [Hm|Hm];
    destruct (bool_decide_reflect (status m = Some Seen)) as [Hs|Hs]; simpl; tauto.
Qed.

(** Once the Seen updates that a client issued while rendering a snapshot
    are committed, the path holds the same keys with every message of
    another sender Seen and nothing else changed, and rendering that new
    snapshot issues no further update: the callback does not keep
    re-triggering itself through the store. *)
Theorem seen_render_converges (s : Store) (path : string) (c : Client) :
  store_wf s →
  let me := uid (currentUser c) in
  let ws := (onMessagesValue path (children s path) c).2 in
  children (run ws s) path = seen_by me (children s path) ∧
  (onMessagesValue path (children (run ws s) path) c).2 = [] ∧
  (∀ k m, (k, m) ∈ children (run ws s) path → senderId m ≠ Some me → status m = Some Seen).
Proof.
  intros Hwf me ws.
  assert (children (run ws s) path = seen_by me (children s path)) as Hnew.
  { subst ws. rewrite onMessagesValue_writes_list.
    rewrite run_seen_updates; [|apply Hwf|].
    - unfold seen_by. apply list_fmap_ext. intros i [k m] Hi. simpl. f_equal.
      pose proof (gate_unseen me (k, m)) as Hg. simpl in Hg. rewrite Hg.
      destruct (decide (unseen_for me (k, m))) as [Hu|Hu].
      + rewrite !bool_decide_eq_true_2; [done..|].
        apply list_elem_of_fmap. exists (k, m). split; [done|].
        apply list_elem_of_filter. split; [done|]. by apply list_elem_of_lookup_2 in Hi.
      + rewrite (bool_decide_eq_false_2 (unseen_for _ _)) by done.
        rewrite bool_decide_eq_false_2; [done|]. intros Hin.
        apply list_elem_of_fmap in Hin as ([k' m'] & Hk & Hin). simpl in Hk. subst k'.
        apply list_elem_of_filter in Hin as [Hu' Hin]. apply Hu.
        assert (m' = m) as <-; [|done].
        apply list_elem_of_lookup in Hin as [j Hj].
        pose proof (keys_sorted_NoDup _ (Hwf path)) as Hnd.
        assert (j = i) as ->; [|congruence].
        apply (NoDup_lookup _ _ _ k Hnd); by rewrite list_lookup_fmap, ?Hj, ?Hi.
    - intros k Hk. apply list_elem_of_fmap in Hk as (km & -> & Hkm).
      apply list_elem_of_filter in Hkm as [_ Hkm]. by apply list_elem_of_fmap_2. }
  split_and!; [done| |].
  - rewrite Hnew. by apply seen_by_quiet.
  - rewrite Hnew. intros k m Hin Hsender. unfold seen_by in Hin.
    apply list_elem_of_fmap in Hin as ([k0 m0] & [= -> ->] & _). simpl in *.
    destruct (bool_decide_reflect (senderId m0 = Some me)) as [Hm|Hm];
      destruct (bool_decide_reflect (status m0 = Some Seen)) as [Hs|Hs];
      simpl in *; try done.
Qed.

Lemma seen_render_converges_witness :
  children (run bob_writes store_sent) "chats/u1_u2"
    = seen_by "u2" (children store_sent "chats/u1_u2") ∧
  (onMessagesValue "chats/u1_u2" (children (run bob_writes store_sent) "chats/u1_u2")
     bob_open).2 = [].
Proof.
  destruct (seen_render_converges store_sent "chats/u1_u2" bob_open) as (H1 & H2 & _).
  - apply run_wf, empty_store_wf.
  - split; [exact H1 | exact H2].
Defined.

(** ** The nested runs of the message callback *)

Section page.
Variables me path : string.

#[local] Abbreviation seen_at k :=
  (λ km : string * Message,
     if decide (km.1 = k) then (km.1, set_status Seen km.2) else km).

Lemma set_status_same (m : Message) : status m = Some Seen → set_status Seen m = m.
Proof. destruct m. simpl. by intros ->. Qed.

Lemma update_seen_children (k : string) (s : Store) :
  store_wf s → k ∈ (children s path).*1 →
  children (commit (WUpdate path k (only_status Seen)) s) path
  = seen_at k <$> children s path.
Proof.
  intros Hs Hk. simpl. rewrite children_with_children, decide_True by done.
  by apply seen_update_present.
Qed.

Lemma seen_at_quiet (k : string) (m' : Message) (L : Children) :
  keys_sorted L → (k, m') ∈ L → status m' = Some Seen → seen_at k <$> L = L.
Proof.
  intros Hs Hin Hst. rewrite <- (list_fmap_id L) at 2. apply list_fmap_ext.
  intros i [k1 m1] Hi. simpl. destruct (decide (k1 = k)) as [->|]; [|done].
  f_equal. apply set_status_same.
  assert (m1 = m') as ->; [|done].
  apply list_elem_of_lookup in Hin as [j Hj].
  assert (i = j) as ->; [|congruence].
  apply (NoDup_lookup (L.*1) i j k); [by apply keys_sorted_NoDup| |].
  - by rewrite list_lookup_fmap, Hi.
  - by rewrite list_lookup_fmap, Hj.
Qed.

Lemma page_fold_quiet (rerun : Store → PageRun) (l : Children) (acc : PageRun) :
  store_wf acc.1.2 →
  Forall (quiet_for me (children acc.1.2 path)) l →
  let r := foldl (page_entry rerun me path) acc l in
  r.1.1 = acc.1.1 ++ ((fst ∘ render_one me path) <$> l) ∧
  children r.1.2 path = children acc.1.2 path ∧
  store_wf r.1.2 ∧
  ∀ rerun', foldl (page_entry rerun' me path) acc l = r.
Proof.
  revert acc. induction l as [|[k m] l IH]; intros acc Hwf Hq; simpl.
  - by rewrite app_nil_r.
  - apply Forall_cons in Hq as [Hkm Hq].
    assert (∀ rerun0, page_entry rerun0 me path acc (k, m)
            = page_entry rerun me path acc (k, m) ∧
            (page_entry rerun me path acc (k, m)).1.1
              = acc.1.1 ++ [(render_one me path (k, m)).1] ∧
            children (page_entry rerun me path acc (k, m)).1.2 path
              = children acc.1.2 path ∧
            store_wf (page_entry rerun me path acc (k, m)).1.2) as Hstep.
    { intros rerun0. unfold page_entry, render_one. cbn [fst snd].
      destruct (negb (bool_decide (senderId m = Some me))
                && negb (bool_decide (status m = Some Seen))) eqn:Hgate; [|done].
      destruct Hkm as [Hkm|(m' & Hin & Hst)].
      { pose proof (gate_unseen me (k, m)) as Hg. cbn [snd] in Hg.
        rewrite Hg in Hgate. by apply bool_decide_eq_true in Hgate. }
      assert (children (commit (WUpdate path k (only_status Seen)) acc.1.2) path
              = children acc.1.2 path) as Hsame.
      { rewrite update_seen_children; [|done|].
        - by apply (seen_at_quiet k m').
        - apply list_elem_of_fmap. by exists (k, m'). }
      rewrite !decide_True by done. cbn [fst snd]. split_and!; try done.
      by apply commit_wf. }
    destruct (Hstep rerun) as (_ & Hv & Hc & Hw).
    destruct (IH (page_entry rerun me path acc (k, m))) as (IH1 & IH2 & IH3 & IH4).
    { done. }
    { by rewrite Hc. }
    split_and!.
    + rewrite IH1, Hv, <- app_assoc. reflexivity.
    + by rewrite IH2.
    + done.
    + intros rerun'. rewrite (proj1 (Hstep rerun')). apply IH4.
Qed.


Lemma first_unseen_split (l : Children) :
  Forall (λ km, ¬ unseen_for me km) l ∨
  ∃ l1 e l2, l = l1 ++ e :: l2 ∧ Forall (λ km, ¬ unseen_for me km) l1 ∧ unseen_for me e.
Proof.
  induction l as [|e l IH]; [by left|].
  destruct (decide (unseen_for me e)) as [He|He].
  - right. by exists [], e, l.
  - destruct IH as [IH|(l1 & e' & l2 & -> & H1 & He')].
    + left. by constructor.
    + right. exists (e :: l1), e', l2. split_and!; [done| |done]. by constructor.
Qed.

Lemma render_keys (l : Children) :
  dataKey <$> ((fst ∘ render_one me path) <$> l) = l.*1.
Proof.
  rewrite <- list_fmap_compose. apply list_fmap_ext. intros i [k m] _. simpl.
  by destruct (negb _ && negb _).
Qed.

Lemma seen_by_keys (l : Children) : (seen_by me l).*1 = l.*1.
Proof. unfold seen_by. rewrite <- list_fmap_compose. by apply list_fmap_ext. Qed.

Lemma seen_by_entry (km : string * Message) :
  (km.1, if negb (bool_decide (senderId km.2 = Some me))
            && negb (bool_decide (status km.2 = Some Seen))
         then set_status Seen km.2 else km.2)
  = if decide (unseen_for me km) then (km.1, set_status Seen km.2) else km.
Proof.
  rewrite gate_unseen. destruct km as [k m]. simpl.
  destruct (decide (unseen_for me (k, m))) as [H|H].
  - by rewrite (bool_decide_eq_true_2 _ H).
  - by rewrite (bool_decide_eq_false_2 _ H).
Qed.

Lemma seen_by_nothing (l : Children) :
  Forall (λ km, ¬ unseen_for me km) l → seen_by me l = l.
Proof.
  intros Hl. unfold seen_by. rewrite <- (list_fmap_id l) at 2.
  apply list_fmap_ext. intros i km Hi. rewrite seen_by_entry, decide_False; [done|].
  rewrite Forall_forall in Hl. apply Hl. by apply list_elem_of_lookup_2 in Hi.
Qed.

Lemma seen_by_unseen (l : Children) (km : string * Message) :
  km ∈ l → unseen_for me km → (km.1, set_status Seen km.2) ∈ seen_by me l.
Proof.
  intros Hin Hu. unfold seen_by. apply list_elem_of_fmap. exists km. split; [|done].
  by rewrite seen_by_entry, decide_True.
Qed.

Lemma seen_at_split (l1 l2 : Children) (k : string) (m : Message) :
  NoDup ((l1 ++ (k, m) :: l2).*1) →
  seen_at k <$> (l1 ++ (k, m) :: l2) = l1 ++ (k, set_status Seen m) :: l2.
Proof.
  intros Hnd. rewrite fmap_app, fmap_cons in Hnd.
  apply NoDup_app in Hnd as (_ & Hdisj & Hnd). apply NoDup_cons in Hnd as [Hnotin _].
  rewrite fmap_app, fmap_cons. simpl. rewrite decide_True by done. f_equal; [|f_equal].
  - rewrite <- (list_fmap_id l1) at 2. apply list_fmap_ext. intros i [k1 m1] Hi. simpl.
    rewrite decide_False; [done|]. intros ->. apply (Hdisj k); [|left].
    apply list_elem_of_fmap. exists (k, m1). split; [done|].
    by apply list_elem_of_lookup_2 in Hi.
  - rewrite <- (list_fmap_id l2) at 2. apply list_fmap_ext. intros i [k1 m1] Hi. simpl.
    rewrite decide_False; [done|]. intros ->. apply Hnotin.
    apply list_elem_of_fmap. exists (k, m1). split; [done|].
    by apply list_elem_of_lookup_2 in Hi.
Qed.

Lemma unseen_not_after_seen (k : string) (m : Message) :
  ¬ unseen_for me (k, set_status Seen m).
Proof. by intros [_ H]. Qed.

Lemma seen_by_after_first (l1 l2 : Children) (k : string) (m : Message) :
  unseen_for me (k, m) →
  seen_by me (l1 ++ (k, set_status Seen m) :: l2) = seen_by me (l1 ++ (k, m) :: l2).
Proof.
  intros Hu. unfold seen_by. rewrite !fmap_app, !fmap_cons. f_equal. f_equal.
  rewrite !seen_by_entry.
  rewrite (decide_True (P := unseen_for me (k, m))) by done.
  by rewrite (decide_False (P := unseen_for me (k, set_status Seen m)))
    by apply unseen_not_after_seen.
Qed.

Lemma unseen_count_after_first (l1 l2 : Children) (k : string) (m : Message) :
  unseen_for me (k, m) →
  S (length (filter (unseen_for me) (l1 ++ (k, set_status Seen m) :: l2)))
  = length (filter (unseen_for me) (l1 ++ (k, m) :: l2)).
Proof.
  intros Hu. rewrite !filter_app, !filter_cons, !length_app.
  rewrite (decide_True (P := unseen_for me (k, m))) by done.
  rewrite (decide_False (P := unseen_for me (k, set_status Seen m)))
    by apply unseen_not_after_seen.
  simpl. lia.
Qed.

(** When no message of the snapshot passes the gate of line 269 the callback
    issues nothing, no run is nested, and every message is appended once. *)
Lemma page_callback_quiet (fuel : nat) (s : Store) :
  Forall (λ km, ¬ unseen_for me km) (children s path) →
  page_callback (S fuel) me path s
  = ((fst ∘ render_one me path) <$> children s path, s, []).
Proof.
  intros Hall. cbn [page_callback].
  change ((fst ∘ render_one me path) <$> children s path)
    with ([] ++ ((fst ∘ render_one me path) <$> children s path)).
  generalize (@nil MsgDiv) as v.
  induction Hall as [|[k m] l Hkm Hall IH]; intros v.
  - by rewrite app_nil_r.
  - assert (negb (bool_decide (senderId m = Some me))
            && negb (bool_decide (status m = Some Seen)) = false) as Hgate.
    { pose proof (gate_unseen me (k, m)) as Hg. cbn [snd] in Hg.
      rewrite Hg. by apply bool_decide_eq_false_2. }
    cbn [foldl]. unfold page_entry at 2. cbn [fst snd]. rewrite Hgate.
    rewrite IH, <- app_assoc. cbn [fmap list_fmap compose render_one].
    by rewrite Hgate.
Qed.

(** What a run of the callback comes to, given enough fuel. The page's copy
    ends with every message of another sender Seen; more fuel changes
    nothing; the view shows the keys of the snapshot and no other; and every
    message that passes the gate is in the view at least twice. *)
Lemma page_callback_run (n : nat) (s : Store) :
  store_wf s →
  length (filter (unseen_for me) (children s path)) < n →
  let r := page_callback n me path s in
  children r.1.2 path = seen_by me (children s path) ∧
  store_wf r.1.2 ∧
  (∀ n', n ≤ n' → page_callback n' me path s = r) ∧
  (children s path).*1 ⊆ dataKey <$> r.1.1 ∧
  dataKey <$> r.1.1 ⊆ (children s path).*1 ∧
  ∀ km, km ∈ children s path → unseen_for me km →
    ∃ v1 v2, dataKey <$> r.1.1 = v1 ++ v2 ∧ km.1 ∈ v1 ∧ km.1 ∈ v2.
Proof.
  revert s. induction n as [|n IH]; intros s Hwf Hcnt; [lia|].
  cbn zeta. cbn [page_callback].
  destruct (first_unseen_split (children s path))
    as [Hnone|(l1 & [k m] & l2 & Hl & Hl1 & Hu)].
  - destruct (page_fold_quiet (page_callback n me path) (children s path) ([], s, []))
      as (Hv & Hc & Hw & Hind); [done| |].
    { eapply Forall_impl; [exact Hnone|]. intros km Hkm. by left. }
    cbn [fst snd] in Hv, Hc. rewrite app_nil_l in Hv. split_and!.
    + by rewrite Hc, seen_by_nothing.
    + done.
    + intros [|n'] Hn'; [lia|]. cbn [page_callback]. apply Hind.
    + by rewrite Hv, render_keys.
    + by rewrite Hv, render_keys.
    + intros km Hin Hkm. rewrite Forall_forall in Hnone. by destruct (Hnone km Hin).
  - set (F := page_entry (page_callback n me path) me path).
    set (w := WUpdate path k (only_status Seen)).
    assert (NoDup ((l1 ++ (k, m) :: l2).*1)) as Hnd.
    { rewrite <- Hl. apply keys_sorted_NoDup, Hwf. }
    (* the iterations before the first message that passes the gate *)
    destruct (page_fold_quiet (page_callback n me path) l1 ([], s, []))
      as (Hv1 & Hc1 & Hw1 & Hind1); [done| |].
    { eapply Forall_impl; [exact Hl1|]. intros km Hkm. by left. }
    fold F in Hv1, Hc1, Hw1, Hind1.
    set (r1 := foldl F ([], s, []) l1) in *.
    cbn [fst snd] in Hv1, Hc1. rewrite app_nil_l in Hv1.
    (* the update of that message and the run it starts *)
    set (cur := commit w r1.1.2).
    assert (children cur path = l1 ++ (k, set_status Seen m) :: l2) as Hcur.
    { subst cur w. rewrite update_seen_children; [|done|].
      - rewrite Hc1, Hl. by apply seen_at_split.
      - rewrite Hc1, Hl, fmap_app, fmap_cons. apply elem_of_app. right. left. }
    assert (children cur path ≠ children r1.1.2 path) as Hchanged.
    { rewrite Hcur, Hc1, Hl. intros Heq. apply app_inv_head in Heq.
      injection Heq as Heq. destruct Hu as [_ Hst]. apply Hst. simpl.
      by rewrite <- Heq. }
    destruct (IH cur) as (Ha & Hb & Hc & Hd & He & _).
    { by apply commit_wf. }
    { rewrite Hcur. rewrite Hl in Hcnt.
      rewrite <- (unseen_count_after_first l1 l2 k m Hu) in Hcnt. lia. }
    set (r' := page_callback n me path cur) in *.
    assert (∀ rerun, rerun cur = r' →
              page_entry rerun me path r1 (k, m)
              = (r'.1.1 ++ [mkMsgDiv k path (bool_decide (senderId m = Some me))
                              (set_status Seen m)],
                 r'.1.2, r1.2 ++ w :: r'.2)) as Hstep.
    { intros rerun Hrerun. unfold page_entry. cbn [fst snd].
      pose proof (gate_unseen me (k, m)) as Hg. cbn [snd] in Hg.
      rewrite Hg, (bool_decide_eq_true_2 _ Hu). fold w. fold cur.
      rewrite decide_False by done. by rewrite Hrerun. }
    set (acc2 := (r'.1.1 ++ [mkMsgDiv k path (bool_decide (senderId m = Some me))
                               (set_status Seen m)],
                  r'.1.2, r1.2 ++ w :: r'.2)) in *.
    (* the iterations after it *)
    assert (children r'.1.2 path = seen_by me (children s path)) as Hfinal.
    { rewrite Ha, Hcur, Hl. by apply seen_by_after_first. }
    destruct (page_fold_quiet (page_callback n me path) l2 acc2)
      as (Hv2 & Hc2 & Hw2 & Hind2); [done| |].
    { subst acc2. cbn [fst snd]. rewrite Hfinal. apply Forall_forall. intros km Hkm.
      destruct (decide (unseen_for me km)) as [Hkmu|Hkmu]; [right|by left].
      exists (set_status Seen km.2). split; [|done]. apply seen_by_unseen; [|done].
      rewrite Hl. apply elem_of_app. right. by right. }
    fold F in Hv2, Hc2, Hw2, Hind2.
    assert (foldl F ([], s, []) (children s path) = foldl F acc2 l2) as Hfold.
    { rewrite Hl, foldl_app. cbn [foldl]. fold r1. unfold F at 2.
      by rewrite (Hstep _ eq_refl). }
    rewrite Hfold. subst acc2. cbn [fst snd] in Hv2, Hc2.
    assert ((children s path).*1 = (children cur path).*1) as Hkeys.
    { by rewrite Hcur, Hl, !fmap_app, !fmap_cons. }
    split_and!.
    + by rewrite Hc2.
    + done.
    + intros [|n'] Hn'; [lia|]. cbn [page_callback].
      rewrite Hl, foldl_app. cbn [foldl]. rewrite Hind1. fold r1.
      rewrite Hstep; [apply Hind2|]. apply Hc. lia.
    + rewrite Hv2, !fmap_app. intros x Hx. rewrite !elem_of_app.
      left. left. apply Hd. by rewrite <- Hkeys.
    + rewrite Hv2, !fmap_app, render_keys. simpl. intros x Hx.
      rewrite !elem_of_app in Hx. destruct Hx as [[Hx|Hx]|Hx].
      * rewrite Hkeys. by apply He.
      * apply list_elem_of_singleton in Hx as ->. rewrite Hl, fmap_app, fmap_cons.
        apply elem_of_app. right. left.
      * rewrite Hl, fmap_app, fmap_cons. apply elem_of_app. right. by right.
    + intros km Hin Hkm. exists (dataKey <$> r'.1.1), (k :: l2.*1). split_and!.
      * rewrite Hv2, !fmap_app, render_keys. simpl. by rewrite <- app_assoc.
      * apply Hd. rewrite <- Hkeys. apply list_elem_of_fmap. by exists km.
      * rewrite Hl in Hin. apply elem_of_app in Hin as [Hin|Hin].
        -- rewrite Forall_forall in Hl1. by destruct (Hl1 km Hin).
        -- apply elem_of_cons in Hin as [->|Hin]; [left|right].
           apply list_elem_of_fmap. by exists km.
Qed.

End page.

(** The page then shows what [onMessagesValue] gives. *)
Lemma page_callback_nothing_unseen (fuel : nat) (path : string) (s : Store) (c : Client) :
  Forall (λ km, ¬ unseen_for (uid (currentUser c)) km) (children s path) →
  page_callback (S fuel) (uid (currentUser c)) path s
  = (messagesEl (onMessagesValue path (children s path) c).1, s, []).
Proof.
  intros Hall. rewrite page_callback_quiet by done.
  unfold onMessagesValue. cbn [fst messagesEl set_view].
  by rewrite <- list_fmap_compose.
Qed.

(** The callback of [loadMessages] on the page, with the runs that its own
    updates start: the run ends, and more fuel changes nothing; the
    page's copy ends with every message of another sender Seen; the view
    shows the keys of the snapshot and no other; and the view holds some
    message more than once exactly when a message passed the gate. *)
Theorem page_render_repeats_unseen (me path : string) (s : Store) :
  store_wf s →
  let r := page_render me path s in
  (∀ n, length (children s path) < n → page_callback n me path s = r) ∧
  children r.1.2 path = seen_by me (children s path) ∧
  (∀ k, shows k r.1.1 ↔ k ∈ (children s path).*1) ∧
  (NoDup (dataKey <$> r.1.1) ↔ Forall (λ km, ¬ unseen_for me km) (children s path)).
Proof.
  intros Hwf r.
  destruct (page_callback_run me path (S (length (children s path))) s Hwf)
    as (Ha & _ & Hc & Hd & He & Hf).
  { pose proof (length_filter (unseen_for me) (children s path)). lia. }
  fold (page_render me path s) in Ha, Hc, Hd, He, Hf. fold r in Ha, Hc, Hd, He, Hf.
  split_and!.
  - intros n Hn. apply Hc. lia.
  - exact Ha.
  - intros k. rewrite shows_keys. split; [apply He|apply Hd].
  - split.
    + intros Hnd. apply Forall_forall. intros km Hin Hkm.
      destruct (Hf km Hin Hkm) as (v1 & v2 & Hv & H1 & H2).
      rewrite Hv in Hnd. apply NoDup_app in Hnd as (_ & Hdisj & _).
      by apply (Hdisj km.1).
    + intros Hnone. subst r. unfold page_render.
      rewrite page_callback_quiet by done. cbn [fst].
      rewrite render_keys. apply keys_sorted_NoDup, Hwf.
Qed.

Lemma page_render_repeats_unseen_witness :
  children bob_page.1.2 "chats/u1_u2"
    = seen_by "u2" (children store_sent "chats/u1_u2") ∧
  ¬ NoDup (dataKey <$> bob_page.1.1).
Proof.
  destruct (page_render_repeats_unseen "u2" "chats/u1_u2" store_sent)
    as (_ & Hcopy & _ & Hdup).
  - apply run_wf, empty_store_wf.
  - split; [exact Hcopy|]. intros Hnd. apply Hdup in Hnd.
    apply Forall_inv in Hnd. apply Hnd. by split.
Defined.

(** On the page a message that passed the gate when it was rendered
    survives "Delete for me": the view holds it more than once, line 314
    removes one element, and the message is still shown. *)
Theorem delete_for_me_keeps_copy (me path : string) (s : Store) (c : Client)
    (el : MsgDiv) (m : Message) :
  store_wf s →
  (dataKey el, m) ∈ children s path →
  unseen_for me (dataKey el, m) →
  let v := (page_render me path s).1.1 in
  el ∈ v →
  ∃ c', delForMe_onclick (showDeleteMenu el (set_view v c)) = Some c' ∧
        length (messagesEl c') + 1 = length v ∧
        shows (dataKey el) (messagesEl c').
Proof.
  intros Hwf Hin Hu v Hel.
  destruct (page_callback_run me path (S (length (children s path))) s Hwf)
    as (_ & _ & _ & _ & _ & Hf).
  { pose proof (length_filter (unseen_for me) (children s path)). lia. }
  destruct (Hf _ Hin Hu) as (v1 & v2 & Hv & H1 & H2). simpl in H1, H2.
  fold (page_render me path s) in Hv. fold v in Hv.
  apply fmap_app_inv in Hv as (a & b & -> & -> & Hab).
  apply list_elem_of_fmap in H1 as (d1 & Hk1 & Hd1).
  apply list_elem_of_fmap in H2 as (d2 & Hk2 & Hd2).
  destruct (list_find_elem_of (λ d, dataKey d = dataKey el) a d1 Hd1 (eq_sym Hk1))
    as [[i d] Hfind].
  pose proof Hfind as Hfound. apply list_find_Some in Hfound as (Hi & _ & _).
  pose proof (take_drop_middle a i d Hi) as Ha.
  assert (delForMe_onclick (showDeleteMenu el (set_view v c))
          = Some (hide_menu (set_view (delete i v) (showDeleteMenu el (set_view v c)))))
    as Hclick.
  { unfold delForMe_onclick, querySelector_dataKey. cbn [showDeleteMenu set_menu deleteMenu
      menuKey set_view messagesEl js_str default].
    by rewrite Hab, (list_find_app_l _ _ _ _ _ Hfind). }
  eexists. split; [exact Hclick|]. cbn [hide_menu set_menu set_view messagesEl].
  assert (delete i v = take i a ++ drop (S i) a ++ b) as Hdel.
  { rewrite Hab, <- Ha at 1. rewrite <- app_assoc. cbn [app].
    assert (i = length (take i a)) as Hlen.
    { rewrite length_take. apply lookup_lt_Some in Hi. lia. }
    rewrite Hlen at 1. apply delete_middle. }
  split.
  - rewrite length_delete.
    + assert (0 < length v); [|lia]. rewrite Hab, length_app.
      apply lookup_lt_Some in Hi. lia.
    + rewrite Hab. exists d. by apply lookup_app_l_Some.
  - exists d2. split; [|done]. rewrite Hdel, !elem_of_app. by right; right.
Qed.

Lemma delete_for_me_keeps_copy_witness :
  ∃ c', delForMe_onclick bob_page_menu = Some c' ∧ shows "m1" (messagesEl c').
Proof.
  destruct (delete_for_me_keeps_copy "u2" "chats/u1_u2" store_sent bob_open
              (mkMsgDiv "m1" "chats/u1_u2" false
                 (mkMessage (Some "u1") (Some "A") (Some "") (Some "hi") (Some 100%Z)
                            (Some Seen) None))
              (mkMessage (Some "u1") (Some "A") (Some "") (Some "hi") (Some 100%Z)
                         (Some Sent) None))
    as (c' & Hclick & _ & Hshown).
  - apply run_wf, empty_store_wf.
  - vm_compute. left.
  - by split.
  - vm_compute. left.
  - exists c'. split; [exact Hclick | exact Hshown].
Defined.

(** The nesting of the callback on three messages, two of them new to B:
    the view holds eight elements and the Seen update of "m2" is issued
    twice. *)
Lemma page_callback_three_messages :
  dataKey <$> (page_render "u2" "chats/u1_u2" three_messages).1.1
    = ["m1"; "m2"; "m3"; "m2"; "m3"; "m1"; "m2"; "m3"] ∧
  (page_render "u2" "chats/u1_u2" three_messages).2
    = [WUpdate "chats/u1_u2" "m1" (only_status Seen);
       WUpdate "chats/u1_u2" "m2" (only_status Seen);
       WUpdate "chats/u1_u2" "m2" (only_status Seen)] ∧
  children (page_render "u2" "chats/u1_u2" three_messages).1.2 "chats/u1_u2"
    = seen_by "u2" (children three_messages "chats/u1_u2").
Proof. by split_and!. Qed.

(** ** Opening a conversation twice *)







Lemma openChat_record (users : list ChatUser) (gid : option string) (c : Client) :
  openChat users gid c =
    mkClient (currentUser c) (Some (chatIdOf users gid (currentUser c)))
      (1 <? length users)%nat (chatUsersOf users (currentUser c))
      (pendingReply c) (messageInput c) false (messagesEl c) (typingVisible c)
      (replyText c) (replyPreviewShown c) (deleteMenu c)
      (listeners (openChat users gid c)).
Proof. reflexivity. Qed.


(** ** Typing presence *)

(** The typing indicator is shown exactly when the flag of some user other
    than the local one is set; the local user's own flag never shows it. The
    callback changes nothing else. *)
Theorem typing_indicator_iff (d : gmap string bool) (c : Client) :
  (typingVisible (onTypingValue d c) = true ↔
     ∃ u, u ≠ uid (currentUser c) ∧ d !! u = Some true) ∧
  ((∀ u, d !! u = Some true → u = uid (currentUser c)) →
     typingVisible (onTypingValue d c) = false) ∧
  messagesEl (onTypingValue d c) = messagesEl c ∧
  listeners (onTypingValue d c) = listeners c.
Proof.
  assert (typingVisible (onTypingValue d c) = true ↔
          ∃ u, u ≠ uid (currentUser c) ∧ d !! u = Some true) as Hiff.
  { unfold onTypingValue. simpl. rewrite existsb_exists. split.
    - intros ([u b] & Hin & Hb). apply andb_true_iff in Hb as [Hu Hb]. simpl in *.
      apply bool_decide_eq_true in Hu. subst b. exists u. split; [done|].
      apply elem_of_map_to_list. by apply list_elem_of_In.
    - intros (u & Hu & Hd). exists (u, true). split.
      + apply list_elem_of_In. by apply elem_of_map_to_list.
      + simpl. by rewrite bool_decide_eq_true_2. }
  split_and!; [done| |done|done].
  intros Hown. apply not_true_is_false. intros Hv.
  apply Hiff in Hv as (u & Hu & Hd). by apply Hown in Hd.
Qed.

Lemma typing_indicator_iff_witness :
  typingVisible (onTypingValue {[ "u1" := true ]} alice_typed) = false.
Proof.
  destruct (typing_indicator_iff {[ "u1" := true ]} alice_typed) as (_ & Hown & _).
  apply Hown. intros u Hu.
  destruct (decide (u = "u1")) as [->|Hne]; [done|].
  by rewrite lookup_singleton_ne in Hu.
Defined.

Lemma typing_run_app (es1 es2 : list TypingEvent) (t : Timers) :
  typing_run (es1 ++ es2) t =
    let '(t1, ws1) := typing_run es1 t in
    let '(t2, ws2) := typing_run es2 t1 in
    (t2, ws1 ++ ws2).
Proof.
  revert t. induction es1 as [|e es1 IH]; intros t; simpl.
  - by destruct (typing_run es2 t).
  - destruct (typing_step e t) as [t1 ws1]. rewrite IH.
    destruct (typing_run es1 t1) as [t2 ws2].
    destruct (typing_run es2 t2) as [t3 ws3]. by rewrite app_assoc.
Qed.

Lemma typing_step_ok (e : TypingEvent) (t : Timers) :
  timers_ok t → timers_ok (typing_step e t).1.
Proof.
  intros Hok. destruct e as [c|i c]; simpl.
  - right. exists (nextTimer t). split; [|done].
    destruct Hok as [Ha|(i & Ha & Ht)]; rewrite Ha.
    + by destruct (typingTimeout t).
    + rewrite Ht. simpl. rewrite filter_cons, decide_False by tauto. done.
  - unfold typing_timer_fires. destruct (decide (i ∈ armed t)) as [Hin|Hin]; [|done].
    left. simpl. destruct Hok as [Ha|(j & Ha & Ht)]; rewrite Ha in *.
    + by apply elem_of_nil in Hin.
    + apply list_elem_of_singleton in Hin as ->.
      by rewrite filter_cons, decide_False by tauto.
Qed.

Lemma typing_run_ok (es : list TypingEvent) (t : Timers) :
  timers_ok t → timers_ok (typing_run es t).1.
Proof.
  revert t. induction es as [|e es IH]; intros t Hok; [done|]. simpl.
  pose proof (typing_step_ok e t Hok) as H1.
  destruct (typing_step e t) as [t1 ws1]. specialize (IH t1 H1).
  by destruct (typing_run es t1).
Qed.

Lemma typed_run (cs : list Client) (t : Timers) :
  (typing_run (Typed <$> cs) t).2 = (λ c, typing_write c true) <$> cs.
Proof.
  revert t. induction cs as [|c cs IH]; intros t; [done|].
  rewrite !fmap_cons.
  change (typing_run (Typed c :: (Typed <$> cs)) t)
    with (let '(t2, ws2) := typing_run (Typed <$> cs) (messageInput_oninput c t).1 in
          (t2, [typing_write c true] ++ ws2)).
  specialize (IH (messageInput_oninput c t).1).
  destruct (typing_run (Typed <$> cs) _) as [t2 ws2]. simpl in *. by rewrite IH.
Qed.

Lemma timers_run_stops (fs : list TypingEvent) (t : Timers) :
  Forall is_timer_event fs → timers_ok t →
  length (typing_run fs t).2 ≤ length (armed t) ∧
  Forall (λ w, ∃ p u, w = WSetTyping p u false) (typing_run fs t).2.
Proof.
  revert t. induction fs as [|e fs IH]; intros t Hfs Hok; simpl.
  - split; [lia|done].
  - apply Forall_cons in Hfs as [He Hfs]. destruct e as [c|i c]; [done|].
    pose proof (typing_step_ok (TimerRuns i c) t Hok) as Hok1. simpl in *.
    unfold typing_timer_fires in *. destruct (decide (i ∈ armed t)) as [Hin|Hin].
    + destruct (IH _ Hfs Hok1) as [Hlen Hall]. simpl in *.
      destruct (typing_run fs _) as [t2 ws2]. simpl in *.
      destruct Hok as [Ha|(j & Ha & Ht)]; rewrite Ha in *.
      * by apply elem_of_nil in Hin.
      * apply list_elem_of_singleton in Hin as ->.
        rewrite filter_cons, decide_False in Hlen by tauto. simpl in *.
        split; [lia|]. constructor; [|done]. by eexists _, _.
    + destruct (IH _ Hfs Hok) as [Hlen Hall].
      by destruct (typing_run fs t) as [t2 ws2].
Qed.

(** Whatever happened before, a burst of input events followed by timer
    callbacks writes the flag [true] once per input event and [false] at
    most once: every input event clears the timer of the one before. And at
    any time at most one timer is armed. *)
Theorem typing_burst_coalesced (es fs : list TypingEvent) (cs : list Client) :
  Forall is_timer_event fs →
  let t := (typing_run es no_timers).1 in
  timers_ok t ∧
  ∃ stops,
    (typing_run ((Typed <$> cs) ++ fs) t).2 = ((λ c, typing_write c true) <$> cs) ++ stops ∧
    length stops ≤ 1 ∧
    Forall (λ w, ∃ p u, w = WSetTyping p u false) stops.
Proof.
  intros Hfs t.
  assert (timers_ok t) as Hok by (apply typing_run_ok; by left).
  split; [done|]. rewrite typing_run_app.
  pose proof (typed_run cs t) as Htyped.
  pose proof (typing_run_ok (Typed <$> cs) t Hok) as Hok1.
  destruct (typing_run (Typed <$> cs) t) as [t1 ws1]. simpl in *.
  destruct (timers_run_stops fs t1 Hfs Hok1) as [Hlen Hall].
  destruct (typing_run fs t1) as [t2 ws2]. simpl in *.
  exists ws2. split_and!; [by rewrite Htyped| |done].
  destruct Hok1 as [Ha|(i & Ha & _)]; rewrite Ha in Hlen; simpl in Hlen; lia.
Qed.

Lemma typing_burst_coalesced_witness :
  ∃ stops,
    (typing_run [Typed alice_typed; Typed alice_typed; Typed alice_typed;
                 TimerRuns 0 alice_typed; TimerRuns 1 alice_typed; TimerRuns 2 alice_typed]
                no_timers).2
    = [typing_write alice_typed true; typing_write alice_typed true;
       typing_write alice_typed true] ++ stops ∧
    length stops ≤ 1.
Proof.
  destruct (typing_burst_coalesced []
              [TimerRuns 0 alice_typed; TimerRuns 1 alice_typed; TimerRuns 2 alice_typed]
              [alice_typed; alice_typed; alice_typed]) as (_ & stops & Heq & Hlen & _).
  - repeat constructor.
  - exists stops. split; [exact Heq | exact Hlen].
Defined.

Example typing_burst_example :
  (typing_run [Typed alice_typed; Typed alice_typed; Typed alice_typed;
               TimerRuns 0 alice_typed; TimerRuns 1 alice_typed; TimerRuns 2 alice_typed]
              no_timers).2
  = [typing_write alice_typed true; typing_write alice_typed true;
     typing_write alice_typed true; typing_write alice_typed false].
Proof. reflexivity. Qed.

Lemma typing_flag_set (s : Store) (p u : string) (b : bool) (p' u' : string) :
  typing_flag (commit (WSetTyping p u b) s) p' u' =
    if decide (p' = p ∧ u' = u) then Some b else typing_flag s p' u'.
Proof.
  unfold typing_flag. simpl. destruct (decide (p' = p)) as [->|Hp].
  - rewrite lookup_insert_eq. simpl. destruct (decide (u' = u)) as [->|Hu].
    + rewrite lookup_insert_eq. by rewrite decide_True.
    + rewrite lookup_insert_ne by done. rewrite decide_False by tauto.
      by destruct (typing s !! p).
  - rewrite lookup_insert_ne by done. by rewrite decide_False by tauto.
Qed.

(** The timer callback writes [false] under the conversation that is open
    when it runs, not the one the user typed in: when another conversation
    is opened before the timer runs, the flag of the first one stays set. *)
Theorem stop_typing_follows_current_chat (c : Client) (users : list ChatUser)
    (gid : option string) (t : Timers) (s : Store) :
  let c2 := openChat users gid c in
  let me := uid (currentUser c) in
  typing_path c2 ≠ typing_path c →
  let ws := (typing_run [Typed c; TimerRuns (nextTimer t) c2] t).2 in
  ws = [WSetTyping (typing_path c) me true; WSetTyping (typing_path c2) me false] ∧
  typing_flag (run ws s) (typing_path c) me = Some true ∧
  typing_flag (run ws s) (typing_path c2) me = Some false.
Proof.
  intros c2 me Hne ws.
  assert (ws = [WSetTyping (typing_path c) me true; WSetTyping (typing_path c2) me false])
    as Hws.
  { subst ws. simpl. unfold typing_timer_fires. simpl.
    rewrite decide_True; [done|]. rewrite elem_of_app, list_elem_of_singleton. by right. }
  split; [done|]. rewrite Hws. unfold run. cbn [foldl]. rewrite !typing_flag_set.
  split.
  - rewrite decide_False by (intros [? _]; congruence). by rewrite decide_True.
  - by rewrite decide_True.
Qed.

Lemma stop_typing_follows_current_chat_witness :
  typing_flag
    (run (typing_run [Typed alice_typed; TimerRuns 0 alice_switched] no_timers).2 empty_store)
    "typing/u1_u2" "u1" = Some true.
Proof.
  destruct (stop_typing_follows_current_chat alice_typed [self_entry carol] None
              no_timers empty_store) as (_ & Hstuck & _).
  - discriminate.
  - exact Hstuck.
Defined.

(** ** Groups *)

Lemma filter_all {A} (P : A → Prop) `{∀ x, Decision (P x)} (l : list A) :
  Forall P l → filter P l = l.
Proof.
  induction 1 as [|x l Hx Hl IH]; [done|]. by rewrite filter_cons, decide_True, IH.
Qed.

Lemma members_fold_lookup (ms : list ChatUser) (m0 : gmap string string) (k : string) :
  is_Some (foldl (λ o u, <[cu_uid u := cu_name u]> o) m0 ms !! k)
  ↔ k ∈ cu_uid <$> ms ∨ is_Some (m0 !! k).
Proof.
  revert m0. induction ms as [|u ms IH]; intros m0; simpl.
  - rewrite elem_of_nil. tauto.
  - rewrite IH, elem_of_cons. destruct (decide (k = cu_uid u)) as [->|Hne].
    + rewrite lookup_insert_eq. split; [|intros _; right; by eexists]. tauto.
    + rewrite lookup_insert_ne by done. tauto.
Qed.

Lemma join_two_nonempty (sep : string) (l : list string) :
  sep ≠ "" → 2 ≤ length l → join sep l ≠ "".
Proof.
  intros Hsep Hl. destruct l as [|x [|y l]]; simpl in Hl; try lia.
  unfold join. simpl. destruct x; [|done]. simpl. by destruct sep.
Qed.

Lemma groupIdOf_nonempty (sel : list ChatUser) (me : User) :
  1 ≤ length sel → groupIdOf sel me ≠ "".
Proof.
  intros Hsel. unfold groupIdOf. apply join_two_nonempty; [done|].
  rewrite (Permutation_length (sort_Permutation _)).
  unfold groupMembers. rewrite length_fmap, length_app. simpl. lia.
Qed.

(** A group document written by group creation has the id derived from its
    members, which is not empty; its member mapping holds exactly the
    creator and the selected users; and it passes the check of [loadGroups]
    for the creator and for every selected user, so it appears in the group
    list of each of them. *)
Theorem created_group_listed (nameInput : string) (selected : list ChatUser)
    (c : Client) (g : GroupDoc) :
  createGroupBtn_onclick nameInput selected c = Some (WSetGroup g) →
  g_id g = groupIdOf selected (currentUser c) ∧
  g_id g ≠ "" ∧
  (∀ k, is_Some (g_members g !! k)
        ↔ k ∈ cu_uid <$> groupMembers selected (currentUser c)) ∧
  group_listed (currentUser c) g = true ∧
  (∀ d : Client, uid (currentUser d) ∈ cu_uid <$> selected →
     ∀ snap, g ∈ snap → g ∈ loadGroups_items snap d).
Proof.
  unfold createGroupBtn_onclick. destruct (decide (trim nameInput = "")); [done|].
  destruct (Nat.ltb_spec (length selected) 1) as [|Hsel]; [done|]. intros [= <-]. simpl.
  assert (∀ k, is_Some (foldl (λ o u, <[cu_uid u := cu_name u]> o)
                          (∅ : gmap string string)
                          (groupMembers selected (currentUser c)) !! k)
               ↔ k ∈ cu_uid <$> groupMembers selected (currentUser c)) as Hmem.
  { intros k. rewrite members_fold_lookup, lookup_empty.
    split; [intros [?|[? ?]]; done | by left]. }
  split_and!; [done|by apply groupIdOf_nonempty|done| |].
  - apply bool_decide_eq_true_2, Hmem. unfold groupMembers.
    rewrite fmap_app, elem_of_app. right. simpl. left.
  - intros d Hd snap Hin. apply list_elem_of_filter. split; [|done].
    apply bool_decide_eq_true_2. simpl. apply Hmem. unfold groupMembers.
    rewrite fmap_app, elem_of_app. by left.
Qed.

Lemma created_group_listed_witness :
  g_id lunch_group = "u1_u2_u3" ∧ lunch_group ∈ loadGroups_items [lunch_group] bob_open.
Proof.
  destruct (created_group_listed "Lunch" [mkChatUser "u2" "B"; mkChatUser "u3" "C"]
              alice_typed lunch_group eq_refl) as (Hid & _ & _ & _ & Hsel).
  split; [by rewrite Hid|]. apply Hsel; [|left].
  vm_compute. apply list_elem_of_In. by left.
Defined.

Lemma openChat_path (users : list ChatUser) (gid : option string) (c : Client) :
  messages_path (openChat users gid c) =
    if (1 <? length users)%nat
    then group_chats_path (chatIdOf users gid (currentUser c))
    else "chats/" +:+ chatIdOf users gid (currentUser c).
Proof. reflexivity. Qed.

Lemma member_entries_perm (g : GroupDoc) : member_entries g ≡ₚ map_to_list (g_members g).
Proof. apply merge_sort_Permutation. Qed.

Lemma group_users_length (g : GroupDoc) (me : User) :
  group_listed me g = true →
  length (group_users g me) = pred (size (g_members g)).
Proof.
  intros Hl. apply bool_decide_eq_true in Hl as [v Hv].
  unfold group_users. rewrite length_fmap.
  rewrite (Permutation_length
             (filter_Permutation _ _ _ (member_entries_perm g))).
  rewrite <- (Permutation_length
             (filter_Permutation (λ un : string * string, un.1 ≠ uid me) _ _
                (map_to_list_delete (g_members g) (uid me) v Hv))).
  rewrite filter_cons, decide_False by (simpl; tauto).
  rewrite filter_all.
  - rewrite length_map_to_list. apply map_size_delete_Some. by eexists.
  - apply Forall_forall. intros [k x] Hin. simpl. intros ->.
    apply elem_of_map_to_list in Hin. by rewrite lookup_delete_eq in Hin.
Qed.

Lemma groupItem_path (g : GroupDoc) (c : Client) :
  g_id g ≠ "" → group_listed (currentUser c) g = true →
  currentChatId (groupItem_onclick g c) = Some (g_id g) ∧
  messages_path (groupItem_onclick g c) =
    if (2 <? size (g_members g))%nat
    then group_chats_path (g_id g) else "chats/" +:+ g_id g.
Proof.
  intros Hid Hl. unfold groupItem_onclick.
  assert (chatIdOf (group_users g (currentUser c)) (Some (g_id g)) (currentUser c)
          = g_id g) as Hchat.
  { unfold chatIdOf, or_else. by rewrite decide_False. }
  split.
  - rewrite openChat_record. cbn [currentChatId]. by rewrite Hchat.
  - rewrite openChat_path, Hchat, group_users_length by done.
    destruct (size (g_members g)) as [|[|[|n]]]; reflexivity.
Qed.

(** Every member of a group who opens it from the group list gets the
    group's id as conversation id and the same message path as every other
    member: [groups/{id}/chats] when the group has more than two members,
    and [chats/{id}] when it has two. *)
Theorem group_members_same_path (g : GroupDoc) (c1 c2 : Client) :
  g_id g ≠ "" →
  group_listed (currentUser c1) g = true →
  group_listed (currentUser c2) g = true →
  currentChatId (groupItem_onclick g c1) = Some (g_id g) ∧
  messages_path (groupItem_onclick g c1) = messages_path (groupItem_onclick g c2) ∧
  messages_path (groupItem_onclick g c1) =
    if (2 <? size (g_members g))%nat
    then group_chats_path (g_id g) else "chats/" +:+ g_id g.
Proof.
  intros Hid H1 H2.
  destruct (groupItem_path g c1 Hid H1) as [Hc1 Hp1].
  destruct (groupItem_path g c2 Hid H2) as [_ Hp2].
  split_and!; [done| |done]. by rewrite Hp1, Hp2.
Qed.

Lemma group_members_same_path_witness :
  messages_path (groupItem_onclick lunch_group alice_typed) = "groups/u1_u2_u3/chats" ∧
  messages_path (groupItem_onclick lunch_group bob_open) = "groups/u1_u2_u3/chats".
Proof.
  destruct (group_members_same_path lunch_group alice_typed bob_open)
    as (_ & Hsame & Hpath).
  - discriminate.
  - reflexivity.
  - reflexivity.
  - rewrite <- Hsame. split; exact Hpath.
Defined.

Lemma createGroup_doc (nameInput : string) (selected : list ChatUser) (c : Client)
    (g : GroupDoc) :
  createGroupBtn_onclick nameInput selected c = Some (WSetGroup g) →
  g = mkGroupDoc (groupIdOf selected (currentUser c)) (trim nameInput)
        (foldl (λ o u, <[cu_uid u := cu_name u]> o) ∅
               (groupMembers selected (currentUser c)))
  ∧ 1 ≤ length selected.
Proof.
  unfold createGroupBtn_onclick. destruct (decide (trim nameInput = "")); [done|].
  destruct (Nat.ltb_spec (length selected) 1); [done|]. by intros [= <-].
Qed.

(** A group of two (the creator and one other user) does not get a path of
    its own: both members, opening it from the group list, read and write
    the message path of their direct conversation. *)
Theorem two_member_group_uses_direct_path (nameInput : string) (other : ChatUser)
    (c d : Client) (g : GroupDoc) :
  cu_uid other ≠ uid (currentUser c) →
  uid (currentUser d) = cu_uid other →
  createGroupBtn_onclick nameInput [other] c = Some (WSetGroup g) →
  isGroup (groupItem_onclick g c) = false ∧
  messages_path (groupItem_onclick g c) = messages_path (openChat [other] None c) ∧
  messages_path (groupItem_onclick g d)
    = messages_path (openChat [self_entry (currentUser c)] None d) ∧
  messages_path (groupItem_onclick g c) = messages_path (groupItem_onclick g d).
Proof.
  intros Hne Hd Hg. apply createGroup_doc in Hg as [-> _].
  set (g := mkGroupDoc _ _ _).
  assert (g_id g ≠ "") as Hid by (by apply groupIdOf_nonempty).
  assert (size (g_members g) = 2) as Hsize.
  { simpl. rewrite map_size_insert_None.
    - by rewrite map_size_insert_None, map_size_empty.
    - rewrite lookup_insert_ne by done. apply lookup_empty. }
  assert (group_listed (currentUser c) g = true) as Hlc.
  { apply bool_decide_eq_true_2. simpl. rewrite lookup_insert_eq. by eexists. }
  assert (group_listed (currentUser d) g = true) as Hld.
  { apply bool_decide_eq_true_2. simpl. rewrite Hd.
    rewrite lookup_insert_ne by done. rewrite lookup_insert_eq. by eexists. }
  destruct (groupItem_path g c Hid Hlc) as [_ Hpc].
  destruct (groupItem_path g d Hid Hld) as [_ Hpd].
  rewrite Hsize in Hpc, Hpd. simpl in Hpc, Hpd.
  split_and!.
  - unfold groupItem_onclick. rewrite openChat_record. cbn [isGroup].
    rewrite group_users_length, Hsize by done. reflexivity.
  - rewrite Hpc. reflexivity.
  - rewrite Hpd, openChat_path. cbn [length Nat.ltb Nat.leb]. f_equal.
    unfold chatIdOf, or_else, groupIdOf, groupMembers, chatUsersOf. f_equal.
    apply sort_perm_eq. simpl. rewrite Hd. apply Permutation_swap.
  - by rewrite Hpc, Hpd.
Qed.

Lemma two_member_group_uses_direct_path_witness :
  messages_path (groupItem_onclick pair_group alice_typed) = "chats/u1_u2" ∧
  messages_path (groupItem_onclick pair_group bob_open) = "chats/u1_u2".
Proof.
  destruct (two_member_group_uses_direct_path "Pair" (mkChatUser "u2" "B")
              alice_typed bob_open pair_group) as (_ & Hc & _ & Hd); [done..|].
  rewrite <- Hd, Hc. split; reflexivity.
Defined.

(** ** Deleting for me when the message is no longer rendered *)

(** When the message the delete menu was opened on is no longer in the view
    (a value event has rebuilt the view without it), the selector of "Delete
    for me" finds the delete menu itself, which carries the same [data-key]:
    the handler removes the menu from the page and leaves the view as it is.
    With the menu out of the page the selector finds nothing and the handler
    raises. *)
Theorem delete_for_me_without_element (c : Client) (k : string) :
  menuKey (deleteMenu c) = Some k →
  ¬ shows k (messagesEl c) →
  (menuInDocument (deleteMenu c) = true →
     ∃ c', delForMe_onclick c = Some c' ∧
           messagesEl c' = messagesEl c ∧
           menuInDocument (deleteMenu c') = false ∧
           menuDisplayed (deleteMenu c') = false ∧
           delForMe_onclick c' = None) ∧
  (menuInDocument (deleteMenu c) = false → delForMe_onclick c = None).
Proof.
  intros Hkey Hnot.
  assert (∀ v, ¬ shows k v → list_find (λ d, dataKey d = k) v = None) as Hfind.
  { intros v Hv. apply list_find_None, Forall_forall. intros d Hd Hk.
    apply Hv. by exists d. }
  unfold delForMe_onclick, querySelector_dataKey. rewrite Hkey. simpl.
  rewrite (Hfind _ Hnot). split.
  - intros Hdoc. rewrite Hdoc, bool_decide_eq_true_2 by done. simpl.
    eexists. split; [done|]. simpl. by rewrite (Hfind _ Hnot).
  - intros Hdoc. by rewrite Hdoc.
Qed.

Lemma delete_for_me_without_element_witness :
  ∃ c', delForMe_onclick (set_view [] bob_menu) = Some c' ∧
        menuInDocument (deleteMenu c') = false.
Proof.
  destruct (delete_for_me_without_element (set_view [] bob_menu) "m1") as [Hin _].
  - reflexivity.
  - intros (d & Hd & _). by apply elem_of_nil in Hd.
  - destruct (Hin eq_refl) as (c' & Hc & _ & Hdoc & _). by exists c'.
Defined.

(** ** Blank input *)

Lemma chars_rev_app (s acc : string) :
  String.list_ascii_of_string (String.rev_app s acc)
  = rev (String.list_ascii_of_string s) ++ String.list_ascii_of_string acc.
Proof.
  revert acc. induction s as [|a s IH]; intros acc; simpl; [done|].
  rewrite IH. simpl. by rewrite <- app_assoc.
Qed.

Lemma chars_rev (s : string) :
  String.list_ascii_of_string (String.rev s) = rev (String.list_ascii_of_string s).
Proof. unfold String.rev. rewrite chars_rev_app. simpl. apply app_nil_r. Qed.

Lemma chars_nil (s : string) : String.list_ascii_of_string s = [] ↔ s = "".
Proof. by destruct s. Qed.

Lemma drop_spaces_blank (s : string) : drop_spaces s = "" ↔ blank s.
Proof.
  unfold blank. induction s as [|a s IH]; simpl.
  - split; [constructor|done].
  - destruct (is_space a) eqn:Ha.
    + rewrite IH, Forall_cons. tauto.
    + split; [done|]. intros [Hs _]%Forall_cons. congruence.
Qed.

Lemma drop_spaces_idemp (s : string) : drop_spaces (drop_spaces s) = drop_spaces s.
Proof.
  induction s as [|a s IH]; simpl; [done|].
  destruct (is_space a) eqn:Ha; [done|]. simpl. by rewrite Ha.
Qed.

Lemma blank_rev (s : string) : blank (String.rev s) ↔ blank s.
Proof.
  unfold blank. rewrite chars_rev, !Forall_forall.
  split; intros H x Hx; apply H; apply list_elem_of_In; apply list_elem_of_In in Hx.
  - by apply (proj1 (in_rev _ x)).
  - by apply (proj2 (in_rev _ x)).
Qed.

Lemma trim_blank (s : string) : trim s = "" ↔ blank s.
Proof.
  unfold trim. split.
  - intros H. apply chars_nil in H. rewrite chars_rev in H.
    apply (f_equal (@rev ascii)) in H. rewrite rev_involutive in H. simpl in H.
    pose proof (proj1 (blank_rev _) (proj1 (drop_spaces_blank _) (proj1 (chars_nil _) H)))
      as Hb.
    apply (proj1 (drop_spaces_blank s)). rewrite <- drop_spaces_idemp.
    exact (proj2 (drop_spaces_blank _) Hb).
  - intros H. apply drop_spaces_blank in H. by rewrite H.
Qed.

(** Send on a blank input (empty or white space only) returns at once: no
    store operation, no pending promise, and the state, with the input and
    a pending reply, is left as it is. On any other input an append is
    issued when the pending reply, if there is one, has a text and a sender
    name; when it lacks one of them [push] raises, nothing is sent and the
    input and the pending reply are kept. *)
Theorem send_blank_input_ignored (now : Z) (key : string) (c : Client) :
  (blank (messageInput c) →
     sendBtn_onclick now key c = (c, [], None) ∧ send_raises c = false) ∧
  (¬ blank (messageInput c) → pushable (pendingReply c) = true →
     ∃ c' msg w, sendBtn_onclick now key c
                 = (c', [WSet (messages_path c) key msg; w],
                    Some (mkPushed (messages_path c) key))
                 ∧ text msg = Some (trim (messageInput c))
                 ∧ text msg ≠ Some ""
                 ∧ send_raises c = false) ∧
  (¬ blank (messageInput c) → pushable (pendingReply c) = false →
     sendBtn_onclick now key c = (c, [], None) ∧ send_raises c = true).
Proof.
  split_and!.
  - intros Hb. apply trim_blank in Hb. unfold sendBtn_onclick, send_raises.
    rewrite decide_True by done. split; [done|].
    by rewrite bool_decide_eq_false_2 by (intros H; by apply H).
  - intros Hb Hp. rewrite <- trim_blank in Hb. rewrite trim_nonblank_send by done.
    eexists _, _, _. split; [done|]. split; [done|]. split; [simpl; congruence|].
    unfold send_raises. rewrite Hp. apply andb_false_r.
  - intros Hb Hp. rewrite <- trim_blank in Hb. by apply send_push_raises.
Qed.

Lemma send_blank_input_ignored_witness :
  sendBtn_onclick 100 "m1" (set_input "   " alice_typed) = (set_input "   " alice_typed, [], None) ∧
  sendBtn_onclick 120 "m6" alice_replying_textless = (alice_replying_textless, [], None) ∧
  send_raises alice_replying_textless = true.
Proof.
  destruct (send_blank_input_ignored 100 "m1" (set_input "   " alice_typed)) as (Hb & _ & _).
  destruct (send_blank_input_ignored 120 "m6" alice_replying_textless) as (_ & _ & Hr).
  split.
  - apply Hb. repeat constructor.
  - apply Hr; [|reflexivity]. intros H. apply trim_blank in H. discriminate.
Defined.

(** ** A reply attaches to one message *)

(** The reference set by [handleReplyClick] on a message that has a text
    and a sender name goes into the next message sent and into no later
    one, and [cancelReply] drops it before any send. A reference to a
    message that lacks one of the two is never sent: [push] raises on every
    send, and the reference stays pending. *)
Theorem reply_attaches_once (m : Message) (k : string) (c : Client)
    (now1 now2 : Z) (key1 key2 in1 in2 : string) :
  ¬ blank in1 → ¬ blank in2 →
  let c1 := set_input in1 (handleReplyClick m k c) in
  let first := sendBtn_onclick now1 key1 c1 in
  let second := sendBtn_onclick now2 key2 (set_input in2 first.1.1) in
  let cancelled := sendBtn_onclick now1 key1 (set_input in1 (cancelReply (handleReplyClick m k c))) in
  (is_Some (text m) → is_Some (senderName m) →
     (∃ msg w, first.1.2 = [WSet (messages_path c) key1 msg; w]
               ∧ replyTo msg = Some (mkReplyRef k (text m) (senderName m))) ∧
     pendingReply first.1.1 = None ∧
     replyPreviewShown first.1.1 = false ∧
     (∃ msg w, second.1.2 = [WSet (messages_path c) key2 msg; w] ∧ replyTo msg = None)) ∧
  (text m = None ∨ senderName m = None →
     first = (c1, [], None) ∧
     second = (set_input in2 c1, [], None) ∧
     pendingReply second.1.1 = Some (mkReplyRef k (text m) (senderName m))) ∧
  (∃ msg w, cancelled.1.2 = [WSet (messages_path c) key1 msg; w] ∧ replyTo msg = None).
Proof.
  intros H1 H2 c1 first second cancelled.
  rewrite <- trim_blank in H1, H2.
  destruct (handleReplyClick_frame m k c) as [Hreply Hpath].
  pose proof (handleReplyClick_pushable m k c) as Hpush.
  split_and!.
  - intros Ht Hn.
    rewrite !bool_decide_eq_true_2 in Hpush by done.
    assert (first = (cancelReply (set_input "" c1),
                     [WSet (messages_path c) key1 (new_message now1 (trim in1) c1);
                      WSetTyping (typing_path c1) (uid (currentUser c1)) false],
                     Some (mkPushed (messages_path c) key1))) as Hfirst.
    { subst first. rewrite trim_nonblank_send by done.
      by change (messages_path c1) with (messages_path (handleReplyClick m k c)); rewrite Hpath. }
    split_and!.
    + rewrite Hfirst. eexists _, _. split; [done|]. exact Hreply.
    + by rewrite Hfirst.
    + by rewrite Hfirst.
    + subst second. rewrite Hfirst. rewrite trim_nonblank_send by done.
      eexists _, _. split.
      * change (messages_path (set_input in2 _))
          with (messages_path (handleReplyClick m k c)). rewrite Hpath. reflexivity.
      * reflexivity.
  - intros Hnone.
    assert (pushable (pendingReply (handleReplyClick m k c)) = false) as Hp.
    { rewrite Hpush. destruct Hnone as [-> | ->].
      - by rewrite (bool_decide_eq_false_2 (is_Some None)) by (by intros [? ?]).
      - rewrite (bool_decide_eq_false_2 (is_Some None)) by (by intros [? ?]).
        apply andb_false_r. }
    assert (first = (c1, [], None)) as Hfirst.
    { subst first. by apply send_push_raises. }
    assert (second = (set_input in2 c1, [], None)) as Hsecond.
    { subst second. rewrite Hfirst. by apply send_push_raises. }
    split_and!; [done..|]. rewrite Hsecond. exact Hreply.
  - subst cancelled. rewrite trim_nonblank_send by done.
    eexists _, _. split.
    + change (messages_path (set_input in1 _))
        with (messages_path (handleReplyClick m k c)). rewrite Hpath. reflexivity.
    + reflexivity.
Qed.

Lemma reply_attaches_once_witness :
  pendingReply alice_reply.1.1 = None ∧
  (∃ msg w, (sendBtn_onclick 130 "m7" (set_input "ok" alice_reply.1.1)).1.2
              = [WSet "chats/u1_u2" "m7" msg; w] ∧ replyTo msg = None) ∧
  sendBtn_onclick 120 "m6" alice_replying_textless = (alice_replying_textless, [], None).
Proof.
  destruct (reply_attaches_once lunch "m5" alice_send.1.1 120 130 "m6" "m7" "sure" "ok")
    as (Hsent & _ & _).
  - intros H. apply trim_blank in H. discriminate.
  - intros H. apply trim_blank in H. discriminate.
  - destruct (reply_attaches_once textless "m5" alice_send.1.1 120 130 "m6" "m7" "sure" "ok")
      as (_ & Hkept & _).
    + intros H. apply trim_blank in H. discriminate.
    + intros H. apply trim_blank in H. discriminate.
    + destruct Hsent as (_ & Hnone & _ & Hsecond); [by eexists..|].
      destruct Hkept as (Hfirst & _); [by left|].
      split_and!; [exact Hnone | exact Hsecond | exact Hfirst].
Defined.

(** ** Going back *)

Lemma notify_fold_user (p : string) (s : Store) (ls : list Listener)
    (acc : Client * list Write) :
  currentUser
    (foldl (λ (acc : Client * list Write) l,
              if decide (listener_path l = p)
              then let '(c', ws) := fire l s acc.1 in (c', acc.2 ++ ws)
              else acc) acc ls).1
  = currentUser acc.1.
Proof.
  revert acc. induction ls as [|l ls IH]; intros acc; [done|]. simpl. rewrite IH.
  destruct (decide (listener_path l = p)); [|done]. by destruct l.
Qed.

Lemma notify_fold_writes (p : string) (s : Store) (ls : list Listener)
    (acc : Client * list Write) :
  (foldl (λ (acc : Client * list Write) l,
            if decide (listener_path l = p)
            then let '(c', ws) := fire l s acc.1 in (c', acc.2 ++ ws)
            else acc) acc ls).2
  = acc.2 ++ concat (writes_of (uid (currentUser acc.1)) s
                       <$> filter (λ l, listener_path l = p) ls).
Proof.
  revert acc. induction ls as [|l ls IH]; intros acc; simpl.
  - by rewrite app_nil_r.
  - rewrite IH, filter_cons. destruct (decide (listener_path l = p)) as [Hp|Hp]; [|done].
    destruct l as [q|q]; simpl; by rewrite <- app_assoc.
Qed.

Lemma notify_view (p : string) (s : Store) (c : Client) :
  OnMessages p ∈ listeners c →
  messagesEl (notify p s c).1
  = (render_one (uid (currentUser c)) p <$> children s p).*1.
Proof.
  unfold notify.
  change (uid (currentUser c)) with (uid (currentUser (c, @nil Write).1)).
  generalize (c, @nil Write) as acc. generalize (listeners c) as ls.
  induction ls as [|l ls IH] using rev_ind; intros acc Hin.
  - by apply elem_of_nil in Hin.
  - rewrite foldl_app. simpl.
    destruct (decide (listener_path l = p)) as [Hp|Hp].
    + destruct l as [q|q]; simpl in Hp; subst q; simpl.
      * by rewrite notify_fold_user.
      * apply IH. apply elem_of_app in Hin as [Hin|Hin]; [done|].
        by apply list_elem_of_singleton in Hin.
    + apply IH. apply elem_of_app in Hin as [Hin|Hin]; [done|].
      apply list_elem_of_singleton in Hin. subst l. by simpl in Hp.
Qed.

(** The back button empties the view and the input and clears the user's
    typing flag, but it neither removes a callback nor forgets the
    conversation: the next value event on the conversation's path fills the
    view again and issues the same Seen updates as if the user had stayed. *)
Theorem back_keeps_subscription (c : Client) (s : Store) (p : string) :
  OnMessages p ∈ listeners c →
  let c' := (backBtn_onclick c).1 in
  (backBtn_onclick c).2 = [WSetTyping (typing_path c) (uid (currentUser c)) false] ∧
  messagesEl c' = [] ∧ messageInput c' = "" ∧ inputDisabled c' = true ∧
  listeners c' = listeners c ∧ currentChatId c' = currentChatId c ∧
  messagesEl (notify p s c').1 = messagesEl (notify p s c).1 ∧
  (notify p s c').2 = (notify p s c).2.
Proof.
  intros Hin c'. split_and!; try done.
  - by rewrite !notify_view.
  - unfold notify. by rewrite !notify_fold_writes.
Qed.

Lemma back_keeps_subscription_witness :
  messagesEl (backBtn_onclick bob_open).1 = [] ∧
  dataKey <$> messagesEl (notify "chats/u1_u2" store_sent (backBtn_onclick bob_open).1).1
    = ["m1"] ∧
  (notify "chats/u1_u2" store_sent (backBtn_onclick bob_open).1).2 = bob_writes.
Proof.
  destruct (back_keeps_subscription bob_open store_sent "chats/u1_u2")
    as (_ & Hempty & _ & _ & _ & _ & Hview & Hwrites).
  - vm_compute. left.
  - split_and!; [exact Hempty | by rewrite Hview | exact Hwrites].
Defined.

(** ** More on the proxy's message preparation *)

Lemma slice_from_neg_drop {A} (n : nat) (l : list A) :
  0 < n → slice_from (- Z.of_nat n) l = drop (length l - n) l.
Proof.
  intros Hn. unfold slice_from.
  destruct (Z.ltb_spec (- Z.of_nat n) 0) as [_|?]; [|lia]. f_equal. lia.
Qed.

Lemma last_drop {A} (k : nat) (l : list A) : k < length l → last (drop k l) = last l.
Proof.
  revert k. induction l as [|x l IH]; intros k Hk; simpl in Hk; [lia|].
  destruct k as [|k]; [done|]. simpl. rewrite IH by lia.
  destruct l as [|y l]; [simpl in Hk; lia|done].
Qed.

Section ProxyMore.
Variable DEFAULT_SYSTEM_INSTRUCTION : string.

#[local] Abbreviation prepare := (prepareMessages DEFAULT_SYSTEM_INSTRUCTION).
#[local] Abbreviation injected := (with_system DEFAULT_SYSTEM_INSTRUCTION).
#[local] Abbreviation instruction := (default_instruction DEFAULT_SYSTEM_INSTRUCTION).

Lemma trim_history_cases (msgs : list JsEntry) :
  (length msgs ≤ MAX_HISTORY ∧ trim_history msgs = msgs) ∨
  (MAX_HISTORY < length msgs ∧
   ∃ m0, head msgs = Some m0 ∧
     ((is_system m0 = true ∧ trim_history msgs = m0 :: drop (length msgs - 19) msgs) ∨
      (is_system m0 = false ∧ trim_history msgs = drop (length msgs - 20) msgs))).
Proof.
  unfold trim_history.
  destruct (Nat.ltb_spec MAX_HISTORY (length msgs)) as [Hlt|Hle]; [right|by left].
  split; [done|]. destruct msgs as [|m0 msgs']; [simpl in Hlt; lia|].
  exists m0. split; [done|]. destruct (is_system m0).
  - left. split; [done|]. change (Nat.max 1 MAX_HISTORY - 1) with 19.
    by rewrite slice_from_neg_drop by lia.
  - right. split; [done|]. unfold MAX_HISTORY. by rewrite slice_from_neg_drop by lia.
Qed.

(** The prepared list is the injected list with a run of older messages
    left out: what is forwarded is a sublist, in the original order, and the
    newest message is always kept. *)
Theorem prepareMessages_keeps_newest (incomingMessages : option (list JsEntry)) :
  prepare incomingMessages `sublist_of` injected incomingMessages ∧
  last (prepare incomingMessages) = last (injected incomingMessages) ∧
  is_Some (last (prepare incomingMessages)).
Proof.
  unfold prepareMessages. set (msgs := injected incomingMessages).
  assert (msgs ≠ []) as Hne.
  { subst msgs. unfold with_system. destruct (existsb _ _) eqn:He; [|done].
    intros Hnil. by rewrite Hnil in He. }
  assert (last (trim_history msgs) = last msgs) as Hlast.
  { destruct (trim_history_cases msgs) as [[_ ->]|(Hlt & m0 & Hhd & [[_ ->]|[_ ->]])];
      [done| |].
    - unfold MAX_HISTORY in Hlt.
      destruct (drop (length msgs - 19) msgs) as [|y r] eqn:Hd.
      + apply (f_equal length) in Hd. rewrite length_drop in Hd. simpl in Hd. lia.
      + change (last (m0 :: y :: r)) with (last (y :: r)). rewrite <- Hd.
        apply last_drop. lia.
    - unfold MAX_HISTORY in Hlt. apply last_drop. lia. }
  split_and!; [|done|].
  - destruct (trim_history_cases msgs) as [[_ ->]|(Hlt & m0 & Hhd & [[_ ->]|[_ ->]])];
      [done| |apply sublist_drop].
    destruct msgs as [|m msgs']; [done|]. injection Hhd as ->.
    unfold MAX_HISTORY in Hlt. simpl in Hlt.
    replace (length (m0 :: msgs') - 19) with (S (length msgs' - 19)) by (simpl; lia).
    simpl. apply sublist_skip, sublist_drop.
  - rewrite Hlast. destruct msgs as [|m msgs'] using rev_ind; [done|].
    rewrite last_snoc. by eexists.
Qed.

(** A list that already has an instruction and at most twenty entries is
    returned as it is; so preparing a prepared list again changes nothing
    whenever the injected list begins with an instruction. *)
Theorem prepareMessages_stable (incomingMessages : option (list JsEntry)) :
  (∀ l, length l ≤ MAX_HISTORY → existsb is_system l = true → prepare (Some l) = l) ∧
  (∀ m0, head (injected incomingMessages) = Some m0 → is_system m0 = true →
     prepare (Some (prepare incomingMessages)) = prepare incomingMessages).
Proof.
  assert (∀ l, length l ≤ MAX_HISTORY → existsb is_system l = true → prepare (Some l) = l)
    as Hfix.
  { intros l Hlen Hsys. unfold prepareMessages, with_system. simpl. rewrite Hsys.
    unfold trim_history. by destruct (Nat.ltb_spec MAX_HISTORY (length l)); [lia|]. }
  split; [done|]. intros m0 Hhd Hsys. apply Hfix.
  - apply trim_history_length.
  - pose proof (trim_history_head _ _ Hhd Hsys) as Hh.
    unfold prepareMessages.
    destruct (trim_history (injected incomingMessages)) as [|x r]; [done|].
    injection Hh as ->. simpl. by rewrite Hsys.
Qed.

(** An instruction message that is not the first entry is not protected:
    when the list has more than twenty entries, does not begin with an
    instruction, and has none among its last twenty, the prepared list has
    no instruction at all. *)
Theorem prepareMessages_can_lose_instruction (msgs : list JsEntry) (m0 : JsEntry) :
  MAX_HISTORY < length msgs →
  existsb is_system msgs = true →
  head msgs = Some m0 → is_system m0 = false →
  existsb is_system (drop (length msgs - 20) msgs) = false →
  prepare (Some msgs) = drop (length msgs - 20) msgs ∧
  existsb is_system (prepare (Some msgs)) = false.
Proof.
  intros Hlt Hsys Hhd Hm0 Hlast.
  assert (injected (Some msgs) = msgs) as Hinj.
  { unfold with_system. simpl. by rewrite Hsys. }
  assert (prepare (Some msgs) = drop (length msgs - 20) msgs) as Hprep.
  { unfold prepareMessages. rewrite Hinj.
    destruct (trim_history_cases msgs) as [[? _]|(_ & m & Hm & [[Hs _]|[_ ->]])];
      [lia| |done].
    rewrite Hhd in Hm. injection Hm as <-. congruence. }
  split; [done|]. by rewrite Hprep.
Qed.

(** What the handler prepares: a non-empty [messages] array wins over
    [message]; a single non-empty [message] becomes the default instruction
    followed by one user message; anything else is refused. *)
Theorem query_messages_selected (b : QueryBody) :
  (∀ m l, b_messages b = Some (m :: l) →
     prepared_for DEFAULT_SYSTEM_INSTRUCTION b = Some (prepare (Some (m :: l)))) ∧
  (∀ s, (b_messages b = None ∨ b_messages b = Some []) → b_message b = Some s → s ≠ "" →
     prepared_for DEFAULT_SYSTEM_INSTRUCTION b
       = Some [instruction; JObject (Some "user") (Some s)]) ∧
  ((b_messages b = None ∨ b_messages b = Some []) →
   (b_message b = None ∨ b_message b = Some "") →
     prepared_for DEFAULT_SYSTEM_INSTRUCTION b = None).
Proof.
  unfold prepared_for, select_messages. split_and!.
  - intros m l ->. done.
  - intros s [-> | ->] -> Hs; by rewrite decide_False.
  - intros [-> | ->] [-> | ->]; done.
Qed.
End ProxyMore.

Lemma prepareMessages_stable_witness :
  prepareMessages "be helpful" (Some (prepareMessages "be helpful" (Some long_history)))
  = prepareMessages "be helpful" (Some long_history).
Proof.
  destruct (prepareMessages_stable "be helpful" (Some long_history)) as [_ Hstable].
  by apply (Hstable (default_instruction "be helpful")).
Defined.

Lemma prepareMessages_can_lose_instruction_witness :
  existsb is_system buried_instruction = true ∧
  existsb is_system (prepareMessages "be helpful" (Some buried_instruction)) = false.
Proof.
  split; [reflexivity|].
  apply (prepareMessages_can_lose_instruction "be helpful" buried_instruction
           (JObject (Some "user") (Some "hi"))).
  - vm_compute. lia.
  - reflexivity.
  - reflexivity.
  - reflexivity.
  - reflexivity.
Defined.

Lemma query_messages_selected_witness :
  prepared_for "be helpful" (mkQueryBody None (Some "hello"))
  = Some [default_instruction "be helpful"; JObject (Some "user") (Some "hello")].
Proof.
  destruct (query_messages_selected "be helpful" (mkQueryBody None (Some "hello")))
    as (_ & Hsingle & _).
  apply Hsingle; [by left|done|done].
Defined.

(** ** Detecting a video link *)

Lemma ci_strip_cons (pc c : ascii) (p l : list ascii) :
  ci_strip (pc :: p) (c :: l) = if decide (lower c = lower pc) then ci_strip p l else None.
Proof.
  unfold ci_strip.
  destruct (decide (lower <$> take (length (pc :: p)) (c :: l) = lower <$> (pc :: p)))
    as [H|H].
  - change (lower c :: (lower <$> take (length p) l) = lower pc :: (lower <$> p)) in H.
    injection H as Hc Hl. by rewrite !decide_True.
  - destruct (decide (lower c = lower pc)) as [Hc|Hc]; [|done].
    rewrite decide_False; [done|]. intros Hl. apply H.
    change (lower c :: (lower <$> take (length p) l) = lower pc :: (lower <$> p)).
    by rewrite Hc, Hl.
Qed.

Lemma lit_strip (p : list ascii) (k : Matcher) (l : list ascii) :
  lit p k l = ci_strip p l ≫= k.
Proof.
  revert l. induction p as [|pc p IH]; intros l.
  - unfold ci_strip. by case_decide.
  - destruct l as [|c l]; [done|]. cbn [lit]. rewrite IH, ci_strip_cons. unfold ci_eqb.
    destruct (bool_decide_reflect (lower pc = lower c)) as [Hc|Hc].
    + by rewrite decide_True.
    + rewrite decide_False; [done|]. congruence.
Qed.

Lemma alt_link_at (l : list ascii) :
  alt (lit (chars "youtube.com/watch?v=")) (lit (chars "youtu.be/")) (take_id 11) l
  = link_at l.
Proof.
  unfold alt, link_at. rewrite !lit_strip.
  by destruct (ci_strip (chars "youtube.com/watch?v=") l ≫= take_id 11),
              (ci_strip (chars "youtu.be/") l ≫= take_id 11).
Qed.

Lemma opt_Some (m : Matcher → Matcher) (k : Matcher) (l r : list ascii) :
  opt m k l = Some r → m k l = Some r ∨ k l = Some r.
Proof. unfold opt. destruct (m k l); [by left|by right]. Qed.

Lemma opt_is_Some (m : Matcher → Matcher) (k : Matcher) (l : list ascii) :
  is_Some (k l) → is_Some (opt m k l).
Proof. unfold opt. by destruct (m k l). Qed.

Lemma ci_strip_first (p : list ascii) (pc c : ascii) (l : list ascii) :
  lower c ≠ lower pc → ci_strip (pc :: p) (c :: l) = None.
Proof.
  intros Hne. rewrite ci_strip_cons. by rewrite decide_False.
Qed.

Lemma first_link_skip (c : ascii) (l : list ascii) :
  lower c ≠ "y"%char → first_link (c :: l) = first_link l.
Proof.
  intros Hc. cbn [first_link]. unfold link_at.
  change (chars "youtube.com/watch?v=") with ("y"%char :: chars "outube.com/watch?v=").
  change (chars "youtu.be/") with ("y"%char :: chars "outu.be/").
  by rewrite !ci_strip_first.
Qed.

(** Matching a literal that has no "y" moves over characters at which no
    link begins. *)
Lemma lit_skip (p : list ascii) (k : Matcher) (l r : list ascii) :
  Forall (λ pc, lower pc ≠ "y"%char) p →
  lit p k l = Some r →
  ∃ l', k l' = Some r ∧ first_link l = first_link l'.
Proof.
  intros Hp. revert l. induction Hp as [|pc p Hpc Hp IH]; intros l Hl; simpl in Hl.
  - by exists l.
  - destruct l as [|c l]; [done|]. unfold ci_eqb in Hl.
    destruct (bool_decide_reflect (lower pc = lower c)) as [Hc|Hc]; [|done].
    destruct (IH l Hl) as (l' & Hk & Hfl). exists l'. split; [done|].
    rewrite first_link_skip; [done|]. by rewrite <- Hc.
Qed.

Lemma ytRegex_at_first_link (l r : list ascii) :
  ytRegex_at l = Some r → first_link l = Some r.
Proof.
  unfold ytRegex_at. intros H.
  assert (∃ l3, opt (lit (chars "www."))
                  (alt (lit (chars "youtube.com/watch?v=")) (lit (chars "youtu.be/"))
                       (take_id 11)) l3 = Some r
                ∧ first_link l = first_link l3) as (l3 & Hw & H3).
  { apply opt_Some in H as [H|H]; [|by exists l].
    apply lit_skip in H as (l1 & H & H1); [|by repeat constructor].
    apply opt_Some in H as [H|H].
    - apply lit_skip in H as (l2 & H & H2); [|by repeat constructor].
      apply lit_skip in H as (l3 & H & H3); [|by repeat constructor].
      exists l3. split; [done|]. congruence.
    - apply lit_skip in H as (l3 & H & H3); [|by repeat constructor].
      exists l3. split; [done|]. congruence. }
  assert (∃ l4, link_at l4 = Some r ∧ first_link l = first_link l4) as (l4 & Hl & H4).
  { apply opt_Some in Hw as [Hw|Hw].
    - apply lit_skip in Hw as (l4 & Hw & H4); [|by repeat constructor].
      exists l4. rewrite alt_link_at in Hw. split; [done|]. congruence.
    - exists l3. by rewrite alt_link_at in Hw. }
  rewrite H4. destruct l4; cbn [first_link]; by rewrite Hl.
Qed.

Lemma ytRegex_at_None (l : list ascii) : ytRegex_at l = None → link_at l = None.
Proof.
  intros Hnone. destruct (link_at l) as [r|] eqn:Hl; [|done].
  assert (is_Some (ytRegex_at l)) as [x Hx]; [|congruence].
  unfold ytRegex_at. apply opt_is_Some, opt_is_Some. rewrite alt_link_at, Hl. by eexists.
Qed.

Lemma regex_search_first_link (l : list ascii) : regex_search l = first_link l.
Proof.
  induction l as [|c l IH]; cbn [regex_search].
  - destruct (ytRegex_at []) as [r|] eqn:Hr.
    + by apply ytRegex_at_first_link in Hr.
    + cbn [first_link]. by rewrite (ytRegex_at_None _ Hr).
  - destruct (ytRegex_at (c :: l)) as [r|] eqn:Hr.
    + by apply ytRegex_at_first_link in Hr.
    + cbn [first_link]. by rewrite (ytRegex_at_None _ Hr).
Qed.

(** The pattern finds what a plain left-to-right scan for the first link
    finds: the optional scheme and "www." in front of the host never change
    whether a link is found nor which video id is taken. The check for an
    empty text is covered by the scan. *)
Theorem detectYouTubeEmbed_first_link (t : string) :
  detectYouTubeEmbed (Some t) = embed_url <$> first_link (chars t) ∧
  detectYouTubeEmbed None = None ∧
  detectYouTubeEmbed (Some "") = None.
Proof.
  split_and!; [|done..]. unfold detectYouTubeEmbed.
  destruct (decide (t = "")) as [->|_]; [done|]. by rewrite regex_search_first_link.
Qed.

Example detect_watch_url :
  detectYouTubeEmbed (Some "see https://www.youtube.com/watch?v=dQw4w9WgXcQ&t=3 now")
  = Some "https://www.youtube.com/embed/dQw4w9WgXcQ".
Proof. reflexivity. Qed.

Example detect_short_url_any_case :
  detectYouTubeEmbed (Some "HTTP://YouTu.BE/a_b-c_d-e_f")
  = Some "https://www.youtube.com/embed/a_b-c_d-e_f".
Proof. reflexivity. Qed.

Example detect_short_id : detectYouTubeEmbed (Some "https://youtu.be/tooShort10") = None.
Proof. reflexivity. Qed.

Example detect_first_of_two :
  detectYouTubeEmbed (Some "youtu.be/AAAAAAAAAAA and youtu.be/BBBBBBBBBBB")
  = Some "https://www.youtube.com/embed/AAAAAAAAAAA".
Proof. reflexivity. Qed.

Lemma take_id_Some (n : nat) (l id : list ascii) :
  take_id n l = Some id →
  ∃ post, l = id ++ post ∧ length id = n ∧ Forall (λ c, is_id_char c = true) id.
Proof.
  revert l id. induction n as [|n IH]; intros l id; simpl.
  - intros [= <-]. by exists l.
  - destruct l as [|c l]; [done|]. destruct (is_id_char c) eqn:Hc; [|done].
    destruct (take_id n l) as [id'|] eqn:Hid; [|done]. intros [= <-].
    destruct (IH l id' Hid) as (post & -> & Hlen & Hall).
    exists post. split_and!; [done|simpl; by rewrite Hlen|by constructor].
Qed.

Lemma take_id_app (id post : list ascii) :
  Forall (λ c, is_id_char c = true) id → take_id (length id) (id ++ post) = Some id.
Proof.
  induction 1 as [|c id Hc Hid IH]; simpl; [done|]. by rewrite Hc, IH.
Qed.

Lemma ci_strip_Some (p l r : list ascii) :
  ci_strip p l = Some r → ∃ host, l = host ++ r ∧ lower <$> host = lower <$> p.
Proof.
  unfold ci_strip. destruct (decide _) as [H|]; [|done]. intros [= <-].
  exists (take (length p) l). by rewrite take_drop.
Qed.

Lemma ci_strip_app (p host r : list ascii) :
  lower <$> host = lower <$> p → ci_strip p (host ++ r) = Some r.
Proof.
  intros H. assert (length p = length host) as Hlen.
  { apply (f_equal length) in H. by rewrite !length_fmap in H. }
  unfold ci_strip. rewrite Hlen, take_app_length, drop_app_length. by rewrite decide_True.
Qed.

Lemma link_at_holds (l id : list ascii) :
  link_at l = Some id ↔
  ∃ host post, l = host ++ id ++ post ∧
    (lower <$> host = chars "youtube.com/watch?v=" ∨ lower <$> host = chars "youtu.be/") ∧
    length id = 11 ∧ Forall (λ c, is_id_char c = true) id.
Proof.
  unfold link_at. split.
  - intros H. apply union_Some in H as [H|[_ H]].
    + destruct (ci_strip _ l) as [r|] eqn:Hs; [|done].
      change (take_id 11 r = Some id) in H.
      apply ci_strip_Some in Hs as (host & -> & Hh).
      apply take_id_Some in H as (post & -> & ? & ?). exists host, post. split_and!; auto.
    + destruct (ci_strip (chars "youtu.be/") l) as [r|] eqn:Hs; [|done].
      change (take_id 11 r = Some id) in H.
      apply ci_strip_Some in Hs as (host & -> & Hh).
      apply take_id_Some in H as (post & -> & ? & ?). exists host, post. split_and!; auto.
  - intros (host & post & -> & Hh & Hlen & Hid).
    pose proof (take_id_app id post Hid) as Ht. rewrite Hlen in Ht.
    destruct Hh as [Hh|Hh].
    + rewrite (ci_strip_app (chars "youtube.com/watch?v=") host) by done.
      change (Some (id ++ post) ≫= take_id 11) with (take_id 11 (id ++ post)).
      rewrite Ht. apply union_Some_l.
    + rewrite (ci_strip_app (chars "youtu.be/") host (id ++ post)) by done.
      change (Some (id ++ post) ≫= take_id 11) with (take_id 11 (id ++ post)).
      rewrite Ht. destruct (ci_strip _ _ ≫= _) as [id'|] eqn:Ha; [|done].
      destruct (ci_strip (chars "youtube.com/watch?v=") (host ++ id ++ post))
        as [r|] eqn:Hs; [|done].
      exfalso. apply ci_strip_Some in Hs as (host' & Heq & Hh').
      apply (f_equal (fmap lower)) in Heq. rewrite !fmap_app, Hh, Hh' in Heq.
      simpl in Heq. discriminate.
Qed.

Lemma first_link_Some (l id : list ascii) :
  first_link l = Some id → ∃ pre l', l = pre ++ l' ∧ link_at l' = Some id.
Proof.
  induction l as [|c l IH]; cbn [first_link].
  - destruct (link_at []) eqn:H; [|done]. intros [= ->]. by exists [], [].
  - destruct (link_at (c :: l)) eqn:H.
    + intros [= ->]. by exists [], (c :: l).
    + intros Hl. destruct (IH Hl) as (pre & l' & -> & Hl'). by exists (c :: pre), l'.
Qed.

Lemma first_link_app (pre l : list ascii) :
  is_Some (link_at l) → is_Some (first_link (pre ++ l)).
Proof.
  intros [id Hid]. induction pre as [|c pre IH]; simpl.
  - destruct l; cbn [first_link]; rewrite Hid; by eexists.
  - cbn [first_link]. by destruct (link_at (c :: pre ++ l)).
Qed.

Lemma str_app_length (a b : string) :
  String.length (a +:+ b) = String.length a + String.length b.
Proof.
  induction a as [|x a IH]; [done|].
  change (String x a +:+ b) with (String x (a +:+ b)). simpl. by rewrite IH.
Qed.

Lemma embed_url_length (id : list ascii) : String.length (embed_url id) = 30 + length id.
Proof.
  unfold embed_url. rewrite str_app_length. simpl. do 30 f_equal.
  induction id as [|c id IH]; simpl; by rewrite ?IH.
Qed.

Lemma detect_Some_holds (t url : string) :
  detectYouTubeEmbed (Some t) = Some url →
  ∃ id, holds_link (chars t) id ∧ url = embed_url id ∧ String.length url = 41.
Proof.
  intros Hurl. unfold detectYouTubeEmbed in Hurl.
  destruct (decide (t = "")); [done|]. rewrite regex_search_first_link in Hurl.
  destruct (first_link (chars t)) as [id|] eqn:Hid; [|done]. injection Hurl as <-.
  apply first_link_Some in Hid as (pre & l' & Heq & Hl').
  apply link_at_holds in Hl' as (host & post & -> & Hh & Hlen & Hall).
  exists id. split_and!; [|done|by rewrite embed_url_length, Hlen].
  by exists pre, host, post.
Qed.

Lemma detect_is_Some_iff (t : string) :
  is_Some (detectYouTubeEmbed (Some t)) ↔ ∃ id, holds_link (chars t) id.
Proof.
  split.
  - intros [url Hurl]. destruct (detect_Some_holds t url Hurl) as (id & Hid & _).
    by exists id.
  - intros (id & pre & host & post & Heq & Hh & Hlen & Hall).
    unfold detectYouTubeEmbed. destruct (decide (t = "")) as [->|_].
    + apply (f_equal length) in Heq. rewrite !length_app, Hlen in Heq.
      simpl in Heq. lia.
    + rewrite regex_search_first_link, Heq.
      destruct (first_link_app pre (host ++ id ++ post)) as [x ->]; [|by eexists].
      exists id. apply link_at_holds. by exists host, post.
Qed.

(** An embed URL is returned exactly when the text holds a link; the URL is
    the fixed embed prefix followed by the eleven id characters of a link
    in the text, 41 characters in all. *)
Theorem detectYouTubeEmbed_holds_link (t : string) :
  (is_Some (detectYouTubeEmbed (Some t)) ↔ ∃ id, holds_link (chars t) id) ∧
  (∀ url, detectYouTubeEmbed (Some t) = Some url →
     ∃ id, holds_link (chars t) id ∧ url = embed_url id ∧ String.length url = 41).
Proof. split; [apply detect_is_Some_iff | apply detect_Some_holds]. Qed.

Lemma detectYouTubeEmbed_holds_link_witness :
  ∃ id, holds_link (chars "go youtu.be/AAAAAAAAAAA") id
        ∧ "https://www.youtube.com/embed/AAAAAAAAAAA" = embed_url id.
Proof.
  destruct (detectYouTubeEmbed_holds_link "go youtu.be/AAAAAAAAAAA") as [_ H].
  destruct (H _ eq_refl) as (id & Hh & Hu & _). by exists id.
Defined.

(** ** What [trim()] returns *)

Lemma chars_reverse (s : string) : chars (String.rev s) = reverse (chars s).
Proof. rewrite chars_rev. unfold reverse. apply rev_alt. Qed.

Lemma chars_inj (s t : string) : chars s = chars t → s = t.
Proof.
  intros H. apply (f_equal String.string_of_list_ascii) in H.
  by rewrite !String.string_of_list_ascii_of_string in H.
Qed.

Lemma str_rev_involutive (s : string) : String.rev (String.rev s) = s.
Proof. apply chars_inj. by rewrite !chars_reverse, reverse_involutive. Qed.

Lemma drop_spaces_suffix (s : string) :
  ∃ pre, chars s = pre ++ chars (drop_spaces s).
Proof.
  induction s as [|a s [pre IH]]; simpl.
  - by exists [].
  - destruct (is_space a); [|by exists []]. exists (a :: pre). by rewrite IH.
Qed.

Lemma drop_spaces_head (s : string) (c : ascii) :
  head (chars (drop_spaces s)) = Some c → is_space c = false.
Proof.
  induction s as [|a s IH]; simpl; [done|].
  destruct (is_space a) eqn:Ha; [done|]. simpl. by intros [= <-].
Qed.

Lemma drop_spaces_fixed (s : string) :
  (∀ c, head (chars s) = Some c → is_space c = false) → drop_spaces s = s.
Proof.
  destruct s as [|a s]; [done|]. simpl. intros H. by rewrite (H a).
Qed.

(** The result of [trim()] begins and ends with a character that is not
    white space (or is empty), so trimming it again changes nothing. *)
Lemma trim_fixed (s : string) :
  drop_spaces (trim s) = trim s ∧ drop_spaces (String.rev (trim s)) = String.rev (trim s).
Proof.
  unfold trim. set (u := drop_spaces s). set (v := drop_spaces (String.rev u)). split.
  - apply drop_spaces_fixed. intros c. rewrite chars_reverse, head_reverse. intros Hlast.
    destruct (drop_spaces_suffix (String.rev u)) as [pre Hpre]. fold v in Hpre.
    assert (last (chars (String.rev u)) = Some c) as Hl.
    { rewrite Hpre, last_app, Hlast. done. }
    rewrite chars_reverse, last_reverse in Hl. by apply (drop_spaces_head s).
  - rewrite str_rev_involutive. apply drop_spaces_idemp.
Qed.

Lemma trim_idemp (s : string) : trim (trim s) = trim s.
Proof.
  destruct (trim_fixed s) as [H1 H2]. unfold trim at 1. by rewrite H1, H2, str_rev_involutive.
Qed.

(** ** Reading the reply *)

Section ReplyProps.
Context {Num : Type} (num_truthy : Num → bool) (num_string : Num → string).

#[local] Abbreviation extract := (extractReplyText Num num_truthy num_string).
#[local] Abbreviation trimmed := (trimmed_text Num num_string).

Lemma trimmed_text_Some (txt : Json Num) (s : string) :
  trimmed txt = Some s → s ≠ "" ∧ trim s = s ∧ s = trim (to_String Num num_string txt).
Proof.
  unfold trimmed_text. destruct (decide _) as [|Hne]; [done|]. intros [= <-].
  split_and!; [done|apply trim_idemp|done].
Qed.

Lemma extract_cases (hfResp : Json Num) :
  extract hfResp = None ∨ ∃ txt, truthy Num num_truthy txt = true ∧ extract hfResp = trimmed txt.
Proof.
  assert (∀ o f txt, and_then Num num_truthy o f = Some txt → ∃ v, f v = Some txt) as Hand.
  { intros o f txt. unfold and_then. destruct o as [v|]; [|done].
    destruct (truthy _ _ v); [|done]. by exists v. }
  assert (∀ o txt, and_then Num num_truthy o Some = Some txt
                   → truthy Num num_truthy txt = true) as Hlast.
  { intros o txt. unfold and_then. destruct o as [v|]; [|done].
    destruct (truthy _ _ v) eqn:Hv; [|done]. by intros [= <-]. }
  unfold extractReplyText.
  destruct (message_content _ _ hfResp) as [txt|] eqn:H1.
  { right. exists txt. split; [|done]. unfold message_content in H1.
    do 4 (apply Hand in H1 as [? H1]). by apply Hlast in H1. }
  destruct (output_content _ _ hfResp) as [txt|] eqn:H2.
  { right. exists txt. split; [|done]. unfold output_content in H2.
    do 2 (apply Hand in H2 as [? H2]). destruct (is_array _ _); [|done].
    apply Hand in H2 as [? H2]. by apply Hlast in H2. }
  destruct (choice_text _ _ hfResp) as [txt|] eqn:H3; [|by left].
  right. exists txt. split; [|done]. unfold choice_text in H3.
  do 3 (apply Hand in H3 as [? H3]). by apply Hlast in H3.
Qed.

(** The reply text is never empty, blank or padded: when one is returned it
    is the trimmed [String()] of a truthy value of the response, has at
    least one character, and begins and ends with a character that is not
    white space. *)
Theorem extractReplyText_trimmed (hfResp : Json Num) (s : string) :
  extract hfResp = Some s →
  s ≠ "" ∧ trim s = s ∧ ¬ blank s ∧
  ∃ txt, truthy Num num_truthy txt = true ∧ s = trim (to_String Num num_string txt).
Proof.
  intros Hs. destruct (extract_cases hfResp) as [Hn|(txt & Htxt & Heq)]; [congruence|].
  rewrite Heq in Hs. apply trimmed_text_Some in Hs as (Hne & Hfix & Hdef).
  split_and!; [done|done| |by exists txt].
  intros Hb. apply trim_blank in Hb. congruence.
Qed.

(** The usual completion shape [{choices: [{message: {content: s}}]}] with a
    non-empty string [s] decides the result by itself: the trimmed content,
    or nothing when the content is blank, whatever [output] or
    [choices[0].text] hold. *)
Theorem extractReplyText_message_content (hfResp ch c0 m : Json Num) (s : string) :
  truthy Num num_truthy hfResp = true →
  prop Num "choices" hfResp = Some ch → truthy Num num_truthy ch = true →
  index0 Num ch = Some c0 → truthy Num num_truthy c0 = true →
  prop Num "message" c0 = Some m → truthy Num num_truthy m = true →
  prop Num "content" m = Some (JStr Num s) → s ≠ "" →
  extract hfResp = (if decide (trim s = "") then None else Some (trim s)) ∧
  (blank s → extract hfResp = None) ∧
  (¬ blank s → extract hfResp = Some (trim s)).
Proof.
  intros Hr Hch Hcht H0 H0t Hm Hmt Hc Hs.
  assert (extract hfResp = (if decide (trim s = "") then None else Some (trim s))) as Heq.
  { unfold extractReplyText, message_content, and_then.
    rewrite Hr, Hch, Hcht, H0, H0t, Hm, Hmt, Hc. simpl.
    rewrite bool_decide_eq_false_2 by done. done. }
  split_and!; [done| |]; intros Hb; rewrite Heq.
  - apply trim_blank in Hb. by rewrite decide_True.
  - rewrite decide_False; [done|]. by rewrite trim_blank.
Qed.

(** The answer of the handler always has a reply text: the extracted one or
    the fallback, so it is not empty when the fallback is not; and it has
    an embed URL exactly when that reply text holds a link. *)
Theorem reply_payload_spec (fallback : string) (hfResp : Json Num) :
  fallback ≠ "" →
  let r := reply_payload Num num_truthy num_string fallback hfResp in
  r.1 ≠ "" ∧
  (extract hfResp = None → r.1 = fallback) ∧
  (∀ s, extract hfResp = Some s → r.1 = s) ∧
  (is_Some r.2 ↔ ∃ id, holds_link (chars r.1) id).
Proof.
  intros Hfb r. subst r. unfold reply_payload. simpl. split_and!.
  - destruct (extract hfResp) as [s|] eqn:Hs; [|done]. simpl.
    destruct (extract_cases hfResp) as [Hn|(txt & _ & Heq)]; [congruence|].
    rewrite Heq in Hs. by apply trimmed_text_Some in Hs as [? _].
  - by intros ->.
  - by intros s ->.
  - apply detect_is_Some_iff.
Qed.
End ReplyProps.


Lemma extractReplyText_trimmed_witness :
  extractReplyText Z (λ n, negb (n =? 0)%Z) pretty.pretty (usual_response "  Hello there. ")
    = Some "Hello there." ∧ trim "Hello there." = "Hello there.".
Proof.
  split; [reflexivity|].
  by destruct (extractReplyText_trimmed (λ n, negb (n =? 0)%Z) pretty.pretty
                 (usual_response "  Hello there. ") "Hello there." eq_refl) as (_ & H & _).
Defined.

Lemma extractReplyText_message_content_witness :
  extractReplyText Z (λ n, negb (n =? 0)%Z) pretty.pretty (usual_response "   ") = None.
Proof.
  destruct (extractReplyText_message_content (λ n, negb (n =? 0)%Z) pretty.pretty
              (usual_response "   ") _ _ _ "   "
              eq_refl eq_refl eq_refl eq_refl eq_refl eq_refl eq_refl eq_refl)
    as (_ & Hblank & _); [done|].
  apply Hblank. repeat constructor.
Defined.

Lemma reply_payload_spec_witness :
  (reply_payload Z (λ n, negb (n =? 0)%Z) pretty.pretty "Sorry." (usual_response "   ")).1 = "Sorry.".
Proof.
  destruct (reply_payload_spec (λ n, negb (n =? 0)%Z) pretty.pretty "Sorry." (usual_response "   "))
    as (_ & Hnone & _); [done|].
  apply Hnone. reflexivity.
Defined.

Example reply_with_link :
  reply_payload Z (λ n, negb (n =? 0)%Z) pretty.pretty "Sorry."
    (usual_response "Watch https://youtu.be/dQw4w9WgXcQ")
  = ("Watch https://youtu.be/dQw4w9WgXcQ", Some "https://www.youtube.com/embed/dQw4w9WgXcQ").
Proof. reflexivity. Qed.

(** ** What status writes leave alone *)

Lemma child_get_below (k b : string) (l : Children) :
  (k = b ∨ str_lt k b) → Forall (str_lt b) (l.*1) → child_get k l = None.
Proof.
  intros Hk. induction l as [|[k0 v] l IH]; simpl; [done|].
  intros [H0 Hl]%Forall_cons. rewrite child_get_cons, decide_False; [by apply IH|].
  intros ->. destruct Hk as [->|Hk]; [by apply (str_lt_irrefl b)|].
  apply (str_lt_irrefl k). by transitivity b.
Qed.

Lemma child_get_put_sorted (k : string) f (l : Children) :
  keys_sorted l → child_get k (child_put k f l) = Some (f (child_get k l)).
Proof.
  unfold keys_sorted. induction l as [|[k0 v] l IH]; simpl; intros Hs.
  - by rewrite child_get_cons, decide_True.
  - apply StronglySorted_inv in Hs as [Hs H0].
    destruct (decide (k = k0)) as [->|Hne].
    + by rewrite !child_get_cons, !decide_True.
    + destruct (String.ltb k k0) eqn:Hlt.
      * rewrite child_get_cons, decide_True by done.
        rewrite (child_get_cons k k0), decide_False by done.
        by rewrite (child_get_below k k0 l) by auto.
      * rewrite !child_get_cons, !decide_False by done. by apply IH.
Qed.

Lemma message_at_status_update (s : Store) (p k p' k' : string) (st : Status) (m : Message) :
  store_wf s → message_at s p' k' = Some m →
  message_at (commit (WUpdate p k (only_status st)) s) p' k'
  = Some (if decide (p' = p ∧ k' = k) then set_status st m else m).
Proof.
  intros Hwf Hm. unfold message_at in *. simpl. rewrite children_with_children.
  destruct (decide (p' = p ∧ k' = k)) as [[-> ->]|Hne].
  - rewrite decide_True by done. rewrite child_get_put_sorted by apply Hwf.
    rewrite Hm. simpl. by rewrite merge_only_status.
  - destruct (decide (p' = p)) as [->|Hp]; [|done].
    rewrite child_get_put_ne; [done|]. intros ->. by apply Hne.
Qed.

(** However the clients' status writes are interleaved, a stored message
    is never removed by them and keeps its sender, text, timestamp and
    reply reference: only its status can differ. *)
Theorem status_writes_preserve_content (s : Store) (ws : list Write)
    (p k : string) (m : Message) :
  store_wf s →
  Forall is_status_write ws →
  message_at s p k = Some m →
  ∃ st, message_at (run ws s) p k
        = Some (mkMessage (senderId m) (senderName m) (senderPic m) (text m)
                          (timestamp m) st (replyTo m)).
Proof.
  intros Hwf Hws. revert s m Hwf.
  induction Hws as [|w ws (p0 & k0 & st0 & -> & _) Hws IH]; intros s m Hwf Hm.
  - exists (status m). by destruct m.
  - change (run (?w :: ?l) s) with (run l (commit w s)).
    pose proof (message_at_status_update s p0 k0 p k st0 m Hwf Hm) as Hstep.
    destruct (IH _ _ (commit_wf _ _ Hwf) Hstep) as [st Hst].
    exists st. rewrite Hst. by destruct (decide (p = p0 ∧ k = k0)).
Qed.

Lemma status_writes_preserve_content_witness :
  ∃ st, message_at (run seen_then_delivered store_sent) "chats/u1_u2" "m1"
        = Some (mkMessage (Some "u1") (Some "A") (Some "") (Some "hi") (Some 100%Z) st None).
Proof.
  apply (status_writes_preserve_content store_sent seen_then_delivered "chats/u1_u2" "m1"
           (mkMessage (Some "u1") (Some "A") (Some "") (Some "hi") (Some 100%Z)
                      (Some Sent) None)).
  - apply run_wf, empty_store_wf.
  - unfold seen_then_delivered. rewrite bob_writes_eq, alice_ack_writes_eq.
    repeat constructor.
    + exists "chats/u1_u2", "m1", Seen. split; [reflexivity | by right].
    + exists "chats/u1_u2", "m1", Delivered. split; [reflexivity | by left].
  - reflexivity.
Defined.

(** ** What the two deletions reach *)

(** "Delete for everyone" on a rendered element removes the message under
    the path and key the element was rendered from (whatever conversation is
    open by then) and nothing else: every other message, the typing flags
    and the groups stay as they were. *)
Theorem delete_for_everyone_frame (el : MsgDiv) (c : Client) (s : Store) :
  let r := delForAll_onclick (showDeleteMenu el c) in
  r.2 = [WRemove (dataPath el) (dataKey el)] ∧
  message_at (run r.2 s) (dataPath el) (dataKey el) = None ∧
  (∀ p k, ¬ (p = dataPath el ∧ k = dataKey el) →
     message_at (run r.2 s) p k = message_at s p k) ∧
  typing (run r.2 s) = typing s ∧ groups (run r.2 s) = groups s ∧
  messagesEl r.1 = messagesEl c ∧ listeners r.1 = listeners c.
Proof.
  intros r. subst r. simpl. split_and!; try done.
  - unfold run, message_at. simpl. rewrite children_with_children, decide_True by done.
    rewrite child_get_remove. by rewrite decide_True.
  - intros p k Hne. unfold run, message_at. simpl. rewrite children_with_children.
    destruct (decide (p = dataPath el)) as [->|Hp]; [|done].
    rewrite child_get_remove, decide_False; [done|]. intros ->. by apply Hne.
Qed.

(** "Delete for me" lasts until the next value event: the handler keeps no
    record of the key, so when the path changes again the message, still in
    the store, is rendered again. *)
Theorem delete_for_me_undone_by_next_event (c c' : Client) (s : Store)
    (p k : string) (m : Message) :
  delForMe_onclick c = Some c' →
  OnMessages p ∈ listeners c →
  message_at s p k = Some m →
  listeners c' = listeners c ∧
  shows k (messagesEl (notify p s c').1).
Proof.
  intros Hdel Hsub Hm.
  assert (listeners c' = listeners c) as Hls.
  { unfold delForMe_onclick in Hdel.
    destruct (querySelector_dataKey _ c) as [[i|]|]; [| |done]; by injection Hdel as <-. }
  split; [done|]. apply shows_keys. rewrite notify_keys by by rewrite Hls.
  apply child_get_Some_elem in Hm. by apply (list_elem_of_fmap_2 fst) in Hm.
Qed.

Lemma delete_for_me_undone_by_next_event_witness :
  ∃ c', delForMe_onclick alice_menu = Some c' ∧ messagesEl c' = [] ∧
        shows "m1" (messagesEl (notify "chats/u1_u2" store_sent c').1).
Proof.
  eexists. split; [reflexivity|]. split; [reflexivity|].
  eapply (delete_for_me_undone_by_next_event alice_menu); [reflexivity| |reflexivity].
  vm_compute. left.
Defined.

Lemma delete_for_everyone_frame_witness :
  message_at
    (run (delForAll_onclick
            (showDeleteMenu (mkMsgDiv "m5" "chats/u1_u2" false lunch) alice_replying)).2
         store_with_reply) "chats/u1_u2" "m6"
  = message_at store_with_reply "chats/u1_u2" "m6".
Proof.
  destruct (delete_for_everyone_frame (mkMsgDiv "m5" "chats/u1_u2" false lunch)
              alice_replying store_with_reply) as (_ & _ & Hother & _).
  apply Hother. intros [_ H]. discriminate.
Defined.
